(** * The interactive command dispatcher of Chatette

    A shallow embedding of [chatette/cli/interactive_commands/command_strategy.py]
    (class [CommandStrategy]) and the properties of its tokenizer, redirection
    detection, unit-name parsing and [execute] algorithm.

    Conventions.  A Python [str] is a list of characters; characters are the
    code points 0..255, so that [ascii] stands for them, and the string
    methods are those of Python 3 ([split] and [rstrip] on the whitespace of
    [str.isspace]).  A mapping of the parser is an association list in
    iteration order.  Python functions that raise are given a [result]; the
    methods of [CommandStrategy] that read or write the instance, the sink or
    the facade run in a state-and-exception monad over an explicit [state],
    which also records the calls made to the sink and to the hooks of the
    subclass. *)

From Stdlib Require Import Ascii String Bool Arith Lia List.
Import ListNotations.

Set Implicit Arguments.

(** ** Python strings *)

Module PyStr.

Definition str := list ascii.

(** A string literal of the source. *)
Definition L (s : string) : str := list_ascii_of_string s.

Definition DQUOTE : ascii := "034"%char.
Definition BACKSLASH : ascii := "\"%char.
Definition SPACE : ascii := " "%char.

Fixpoint str_eqb (a b : str) : bool :=
  match a, b with
  | [], [] => true
  | x :: a', y :: b' => Ascii.eqb x y && str_eqb a' b'
  | _, _ => false
  end.

(** [str.isspace] on one character (code points below 256). *)
Definition isspace (c : ascii) : bool :=
  let n := nat_of_ascii c in
  ((9 <=? n) && (n <=? 13)) || ((28 <=? n) && (n <=? 32))
  || (n =? 133) || (n =? 160).

(** [s.startswith(p)] *)
Fixpoint startswith (s p : str) {struct p} : bool :=
  match p, s with
  | [], _ => true
  | y :: p', x :: s' => Ascii.eqb x y && startswith s' p'
  | _ :: _, [] => false
  end.

Arguments startswith : simpl never.

(** [s.endswith(p)] *)
Definition endswith (s p : str) : bool := startswith (rev s) (rev p).

(** [l[-k]] for [k >= 1], on strings and lists; [None] stands for
    [IndexError]. *)
Definition index_neg {A} (l : list A) (k : nat) : option A :=
  if (k <=? length l) && (1 <=? k) then nth_error l (length l - k) else None.

(** [l[a:-b]] for [b >= 1], on strings and lists. *)
Definition slice {A} (a b : nat) (l : list A) : list A :=
  firstn (length l - a - b) (skipn a l).

(** [s.rstrip()] *)
Fixpoint rstrip (s : str) : str :=
  match s with
  | [] => []
  | c :: r =>
      match rstrip r with
      | [] => if isspace c then [] else [c]
      | r' => c :: r'
      end
  end.

Definition flush (cur : str) : list str :=
  match cur with [] => [] | _ => [cur] end.

(** [s.split()]: the maximal runs of non-whitespace characters.  [cur] is the
    run being read. *)
Fixpoint split_from (cur : str) (s : str) : list str :=
  match s with
  | [] => flush cur
  | c :: r =>
      if isspace c then flush cur ++ split_from [] r
      else split_from (cur ++ [c]) r
  end.

Definition split (s : str) : list str := split_from [] s.

(** [s.split(sep)] for a separator of one character: the fields between the
    separators, at least one. *)
Fixpoint split_on_from (sep : ascii) (cur : str) (s : str) : list str :=
  match s with
  | [] => [cur]
  | c :: r =>
      if Ascii.eqb c sep then cur :: split_on_from sep [] r
      else split_on_from sep (cur ++ [c]) r
  end.

Definition split_on (sep : ascii) (s : str) : list str :=
  split_on_from sep [] s.

(** [sep.join(l)] *)
Fixpoint join (sep : str) (l : list str) : str :=
  match l with
  | [] => []
  | w :: r =>
      match r with
      | [] => w
      | _ => w ++ sep ++ join sep r
      end
  end.

(** [s.replace(old, new)] for a non-empty [old]: the occurrences of [old] are
    taken from the left and do not overlap.  [skip] counts the characters of
    an occurrence still to be passed over. *)
Fixpoint replace_from (old new : str) (skip : nat) (s : str) : str :=
  match s with
  | [] => []
  | c :: r =>
      match skip with
      | S k => replace_from old new k r
      | O =>
          if startswith s old then new ++ replace_from old new (length old - 1) r
          else c :: replace_from old new 0 r
      end
  end.

Definition replace (old new : str) (s : str) : str :=
  replace_from old new 0 s.

(** [c in s] for a character [c] *)
Definition contains (c : ascii) (s : str) : bool :=
  existsb (Ascii.eqb c) s.

(** [str.lower] on one character: A-Z, and the capital letters of the
    Latin-1 supplement. *)
Definition lower_char (c : ascii) : ascii :=
  let n := nat_of_ascii c in
  if ((65 <=? n) && (n <=? 90))
     || ((192 <=? n) && (n <=? 222) && negb (n =? 215))
  then ascii_of_nat (n + 32) else c.

Definition lower (s : str) : str := map lower_char s.

End PyStr.

Import PyStr.

(** ** Constants of the module *)

Definition REDIRECTION_SYM : str := L ">".
Definition REDIRECTION_APPEND_SYM : str := L ">>".
Definition REGEX_SYM : ascii := "/"%char.

(** ** [CommandStrategy.tokenize] *)

(** The three variables of the loop. *)
Record tok_state := {
  tokens : list str;
  current_token : str;
  inside_token : bool
}.

(** The test that [word] ends a literal: it ends with a double quote, and
    [len(word) < 2] or [word[-2]] is not a backslash. *)
Definition ends_literal (word : str) : bool :=
  endswith word [DQUOTE]
  && ((length word <? 2)
      || match index_neg word 2 with
         | Some c => negb (Ascii.eqb c BACKSLASH)
         | None => true
         end).

(** The body of [for word in splitted]. *)
Definition tokenize_step (st : tok_state) (word : str) : tok_state :=
  if inside_token st then
    let cur := current_token st ++ word ++ [SPACE] in
    if ends_literal word then
      {| tokens := tokens st ++ [rstrip cur];
         current_token := [];
         inside_token := false |}
    else
      {| tokens := tokens st; current_token := cur; inside_token := true |}
  else if startswith word [DQUOTE] && ends_literal word then
    {| tokens := tokens st ++ [word];
       current_token := current_token st;
       inside_token := false |}
  else if startswith word [DQUOTE] then
    {| tokens := tokens st;
       current_token := current_token st ++ word ++ [SPACE];
       inside_token := true |}
  else
    {| tokens := tokens st ++ [word];
       current_token := current_token st;
       inside_token := false |}.

Definition tok_init : tok_state :=
  {| tokens := []; current_token := []; inside_token := false |}.

(** The loop and the flush after it. *)
Definition tokenize_loop (st : tok_state) (splitted : list str) : list str :=
  let st' := fold_left tokenize_step splitted st in
  match current_token st' with
  | [] => tokens st'
  | _ => tokens st' ++ [rstrip (current_token st')]
  end.

Definition tokenize (command_str : str) : list str :=
  let splitted := split command_str in
  match splitted with
  | [] => []
  | [w] => [w]
  | _ => tokenize_loop tok_init splitted
  end.

(** ** Redirections *)

(** [RedirectionType] of [chatette.cli.terminal_writer], as far as this
    module names its members. *)
Inductive RedirectionType := truncate | append | quiet.

(** [CommandStrategy.find_redirection_file_path].  The outer [option] is the
    Python [None] for no redirection; the tuple [(None, None)] of the source
    is [Some (None, None)].  With [3 <= len(tokens)] neither index raises. *)
Definition find_redirection_file_path (tokens : list str)
  : option (option RedirectionType * option str) :=
  if length tokens <? 3 then None
  else
    match index_neg tokens 2, index_neg tokens 1 with
    | Some t2, Some t1 =>
        if str_eqb t2 REDIRECTION_APPEND_SYM then Some (Some append, Some t1)
        else if str_eqb t2 REDIRECTION_SYM then Some (Some truncate, Some t1)
        else if str_eqb t1 REDIRECTION_APPEND_SYM || str_eqb t1 REDIRECTION_SYM
        then Some (None, None)
        else None
    | _, _ => None
    end.

(** [CommandStrategy.remove_redirection_tokens], on the token list.
    [__init__] only calls it after a redirection was found, hence on at least
    three tokens, where [command_tokens[-2]] does not raise. *)
Definition remove_redirection_tokens (command_tokens : list str) : list str :=
  match index_neg command_tokens 2 with
  | Some t2 =>
      if str_eqb t2 REDIRECTION_APPEND_SYM || str_eqb t2 REDIRECTION_SYM
      then slice 0 2 command_tokens
      else slice 0 1 command_tokens
  | None => slice 0 1 command_tokens
  end.

(** What [__init__] hands to the class [TerminalWriter] of
    [chatette.cli.terminal_writer], which is not among the sources: the
    redirection type, [None] or an item of [RedirectionType], and the path
    of the file, [None] when there is none. *)
Record TerminalWriter := {
  redirection_type : option RedirectionType;
  redirection_file_path : option str
}.

(** [TerminalWriter(redirection_type, redirection_filepath)] *)
Definition Writer_redirected (type : option RedirectionType)
    (filepath : option str) : TerminalWriter :=
  {| redirection_type := type; redirection_file_path := filepath |}.

(** [TerminalWriter(redirection_type=RedirectionType.quiet)] *)
Definition Writer_quiet : TerminalWriter :=
  {| redirection_type := Some quiet; redirection_file_path := None |}.

(** [TerminalWriter(None)] *)
Definition Writer_default : TerminalWriter :=
  {| redirection_type := None; redirection_file_path := None |}.

(** ** Unit types and names *)

(** [UnitType] of [chatette.parsing.parser_utils]. *)
Inductive UnitType := alias | slot | intent.

(** [unit_type.name] *)
Definition UnitType_name (t : UnitType) : str :=
  match t with
  | alias => L "alias"
  | slot => L "slot"
  | intent => L "intent"
  end.

(** [CommandStrategy.get_unit_type_from_str] *)
Definition get_unit_type_from_str (unit_type_str : str) : option UnitType :=
  let unit_type_str := lower unit_type_str in
  if str_eqb unit_type_str (L "alias") then Some alias
  else if str_eqb unit_type_str (L "slot") then Some slot
  else if str_eqb unit_type_str (L "intent") then Some intent
  else None.

(** [CommandStrategy.remove_quotes] *)
Definition remove_quotes (text : str) : str :=
  replace [BACKSLASH; DQUOTE] [DQUOTE] (slice 1 1 text).

(** Modelled from the spec: [rchop] of [chatette.utils] is imported by the
    module and is not among its sources; it removes [ending] from the end of
    [string] when [string] ends with it (the tests of [chatette.utils]:
    [rchop] of [this is a test] and [test] is [this is a ], and a string not
    ending with [ending] is returned as it is).  It is only called here with a
    non-empty [ending]. *)
Definition rchop (string ending : str) : str :=
  if endswith string ending
  then firstn (length string - length ending) string
  else string.

(** ** The regex engine *)

(** Python's [re], as far as the module uses it: [re.compile(pattern)] and
    [re.compile(pattern, re.IGNORECASE)], which may raise [re.error], and for a
    compiled pattern whether it produces a match starting at a given index of
    a string. *)
Record RegexEngine := {
  regex : Type;
  re_compile : str -> bool -> option regex;
  match_at : regex -> str -> nat -> bool
}.

(** [regex.match(name)]: a match starting at index 0. *)
Definition re_match (E : RegexEngine) (rx : regex E) (name : str) : bool :=
  match_at E rx name 0.

(** [regex.search(name)]: a match starting at some index of [name]. *)
Definition re_search (E : RegexEngine) (rx : regex E) (name : str) : bool :=
  existsb (match_at E rx name) (seq 0 (S (length name))).

(** ** Exceptions and the dispatcher's monad *)

Inductive exn :=
| IndexError
| ValueError (msg : str)
| AttributeError
| RuntimeError
| NotImplementedError
| re_error
| OtherError (tag : str).

Inductive result (A : Type) :=
| Ok (a : A)
| Raise (e : exn).

Arguments Ok {A} a.
Arguments Raise {A} e.

(** What [execute] does to its collaborators, in order. *)
Inductive event :=
| Error_log (text : str)
| Write (text : str)
| Execute_on_unit (unit_type : option UnitType) (unit_name : str)
| Finish_execution.

(** The three mappings of [facade.parser]; the keys are in iteration order. *)
Record Parser (D : Type) := {
  alias_definitions : list (str * D);
  slot_definitions : list (str * D);
  intent_definitions : list (str * D)
}.

(** What a subclass of [CommandStrategy] supplies.  [W] is the state of the
    facade and of whatever else the hooks touch. *)
Record Variant (W : Type) := {
  usage_str : str;
  execute_on_unit : option UnitType -> str -> W -> result W;
  finish_execution : W -> result W
}.

(** The base class itself. *)
Definition base_variant (W : Type) : Variant W :=
  {| usage_str := L "Undefined";
     execute_on_unit := fun _ _ _ => Raise NotImplementedError;
     finish_execution := fun w => Ok w |}.

(** The instance, the facade it is run on, and the calls made so far. *)
Record state (W : Type) := {
  command_tokens : list str;
  print_wrapper : TerminalWriter;
  is_regex_global : option bool;
  facade : W;
  trace : list event
}.

Definition M (W A : Type) : Type := state W -> result A * state W.

Definition ret {W A} (a : A) : M W A := fun st => (Ok a, st).

Definition bind {W A B} (m : M W A) (k : A -> M W B) : M W B :=
  fun st =>
    match m st with
    | (Ok a, st') => k a st'
    | (Raise e, st') => (Raise e, st')
    end.

Definition raise {W A} (e : exn) : M W A := fun st => (Raise e, st).

Notation "x <- m ;; k" := (bind m (fun x => k))
  (at level 61, m at next level, right associativity).
Notation "m ;; k" := (bind m (fun _ => k))
  (at level 61, right associativity).

Definition emit {W} (e : event) : M W unit :=
  fun st =>
    (Ok tt,
     {| command_tokens := command_tokens st;
        print_wrapper := print_wrapper st;
        is_regex_global := is_regex_global st;
        facade := facade st;
        trace := trace st ++ [e] |}).

Definition set_is_regex_global {W} (b : bool) : M W unit :=
  fun st =>
    (Ok tt,
     {| command_tokens := command_tokens st;
        print_wrapper := print_wrapper st;
        is_regex_global := Some b;
        facade := facade st;
        trace := trace st |}).

(** Runs a hook of the variant on the facade; a hook that raises leaves the
    facade as it was. *)
Definition on_facade {W} (f : W -> result W) : M W unit :=
  fun st =>
    match f (facade st) with
    | Ok w =>
        (Ok tt,
         {| command_tokens := command_tokens st;
            print_wrapper := print_wrapper st;
            is_regex_global := is_regex_global st;
            facade := w;
            trace := trace st |})
    | Raise e => (Raise e, st)
    end.

Definition lift_option {W A} (o : option A) (e : exn) : M W A :=
  match o with
  | Some a => ret a
  | None => raise e
  end.

(** ** The dispatcher *)

(** The test that opens [get_name_as_regex], evaluated from left to right as
    Python does: [text[-2]] and [text[-3]] are only read when the tests before
    them failed. *)
Definition regex_shape (text : str) : result bool :=
  if negb (startswith text [REGEX_SYM]) then Ok false
  else if endswith text [REGEX_SYM] then Ok true
  else
    match index_neg text 2 with
    | None => Raise IndexError
    | Some c2 =>
        if Ascii.eqb c2 REGEX_SYM then Ok true
        else
          match index_neg text 3 with
          | None => Raise IndexError
          | Some c3 => Ok (Ascii.eqb c3 REGEX_SYM)
          end
    end.

(** [[e for e in text.split(REGEX_SYM) if e != ""]] *)
Definition splitted_str (text : str) : list str :=
  filter (fun e => negb (str_eqb e [])) (split_on REGEX_SYM text).

(** [body.replace('\\' + REGEX_SYM, REGEX_SYM)] *)
Definition unescape_regex_sym (body : str) : str :=
  replace [BACKSLASH; REGEX_SYM] [REGEX_SYM] body.

Definition select {D} (unit_type : UnitType) (p : Parser D) : list (str * D) :=
  match unit_type with
  | alias => alias_definitions p
  | slot => slot_definitions p
  | intent => intent_definitions p
  end.

(** The choice of [relevant_dict] that opens [next_matching_unit_name] and
    [get_all_matching_unit_name]; [str(None)] is [None]. *)
Definition relevant_dict {D} (unit_type : option UnitType) (p : Parser D)
  : result (list (str * D)) :=
  match unit_type with
  | Some t => Ok (select t p)
  | None =>
      Raise (ValueError (L "Unexpected unit type when matching regex: None"))
  end.

Section Dispatcher.

Variable E : RegexEngine.
Variables W D : Type.

(** [facade.parser] *)
Variable parser : W -> Parser D.

(** The subclass the instance belongs to. *)
Variable V : Variant W.

Definition lift_result {A} (r : result A) : M W A :=
  match r with
  | Ok a => ret a
  | Raise e => raise e
  end.

Definition compile (pattern : str) (ignorecase : bool)
  : M W (option (regex E)) :=
  match re_compile E pattern ignorecase with
  | Some rx => ret (Some rx)
  | None => raise re_error
  end.

(** [CommandStrategy.get_name_as_regex] *)
Definition get_name_as_regex (text : str) : M W (option (regex E)) :=
  shape <- lift_result (regex_shape text) ;;
  if shape then
    let splitted := splitted_str text in
    if length splitted =? 1 then
      compile (unescape_regex_sym (slice 1 1 text)) false
    else
      flags <- lift_option (index_neg splitted 1) IndexError ;;
      let text_without_flags := rchop text flags in
      set_is_regex_global (contains "g"%char flags) ;;
      if contains "i"%char flags then
        compile (unescape_regex_sym (slice 1 1 text_without_flags)) true
      else
        compile (unescape_regex_sym (slice 1 1 text_without_flags)) false
  else ret None.

(** [regex.search(unit_name)] when [self._is_regex_global] is true,
    [regex.match(unit_name)] when it is false or [None]. *)
Definition regex_test (is_global : option bool) (rx : regex E) (unit_name : str)
  : bool :=
  match is_global with
  | Some true => re_search E rx unit_name
  | _ => re_match E rx unit_name
  end.

Definition call_execute_on_unit (unit_type : option UnitType) (unit_name : str)
  : M W unit :=
  emit (Execute_on_unit unit_type unit_name) ;;
  on_facade (execute_on_unit V unit_type unit_name).

Definition call_finish_execution : M W unit :=
  emit Finish_execution ;;
  on_facade (finish_execution V).

(** The [for] loop of [execute] over the generator
    [next_matching_unit_name], which itself iterates over the live mapping.
    The mapping is the one object throughout, changed in place if at all.
    Each step of the dictionary iterator first compares the size of the
    mapping with its size when the iteration began ([RuntimeError] if it
    changed), then takes the key at its position.  [remaining] is
    [size - pos]; the last step only makes the size test. *)
Fixpoint for_matching (remaining size pos : nat)
    (unit_type : option UnitType) (is_global : option bool) (rx : regex E)
    (count : nat) : M W nat :=
  fun st =>
    match relevant_dict unit_type (parser (facade st)) with
    | Raise e => (Raise e, st)
    | Ok d =>
        if negb (length d =? size) then (Raise RuntimeError, st)
        else
          match remaining with
          | O => (Ok count, st)
          | S r =>
              match nth_error d pos with
              | None => (Ok count, st)
              | Some (unit_name, _) =>
                  if regex_test is_global rx unit_name then
                    (call_execute_on_unit unit_type unit_name ;;
                     for_matching r size (S pos) unit_type is_global rx
                       (S count)) st
                  else
                    for_matching r size (S pos) unit_type is_global rx count
                      st
              end
          end
    end.

(** The loop of [execute] from the first [next] of the generator on; the
    generator reads [self._is_regex_global] once, when it starts. *)
Definition count_matching (unit_type : option UnitType) (rx : regex E)
  : M W nat :=
  fun st =>
    match relevant_dict unit_type (parser (facade st)) with
    | Raise e => (Raise e, st)
    | Ok d =>
        for_matching (length d) (length d) 0 unit_type (is_regex_global st)
          rx 0 st
    end.

Definition NEWLINE : ascii := "010"%char.

(** [CommandStrategy.execute] *)
Definition execute : M W unit :=
  fun st =>
    let toks := command_tokens st in
    if length toks <? 3 then
      emit (Error_log (L "Missing some arguments" ++ [NEWLINE]
                         ++ L "Usage: " ++ usage_str V)) st
    else
      (tok1 <- lift_option (nth_error toks 1) IndexError ;;
       let unit_type := get_unit_type_from_str tok1 in
       tok2 <- lift_option (nth_error toks 2) IndexError ;;
       unit_regex <- get_name_as_regex tok2 ;;
       match unit_regex with
       | None =>
           let unit_name := remove_quotes tok2 in
           call_execute_on_unit unit_type unit_name
       | Some rx =>
           count <- count_matching unit_type rx ;;
           if count =? 0 then
             match unit_type with
             | Some t => emit (Write (L "No " ++ UnitType_name t
                                        ++ L " matched."))
             | None => raise AttributeError
             end
           else ret tt
       end ;;
       call_finish_execution) st.

(** [CommandStrategy.__init__] once the line is tokenized, on the facade [w]
    the command will be executed on. *)
Definition init_tokens (toks : list str) (quiet_arg : bool) (w : W) : state W :=
  match find_redirection_file_path toks with
  | Some (redirection_type, redirection_filepath) =>
      {| command_tokens := remove_redirection_tokens toks;
         print_wrapper :=
           Writer_redirected redirection_type redirection_filepath;
         is_regex_global := None;
         facade := w;
         trace := [] |}
  | None =>
      {| command_tokens := toks;
         print_wrapper := if quiet_arg then Writer_quiet else Writer_default;
         is_regex_global := None;
         facade := w;
         trace := [] |}
  end.

(** [CommandStrategy.__init__] *)
Definition init (command_str : str) (quiet_arg : bool) (w : W) : state W :=
  init_tokens (tokenize command_str) quiet_arg w.

End Dispatcher.

(** ** A small regex engine

    An engine for a fragment of Python's pattern syntax, on which the
    dispatcher can be run on concrete commands: an optional leading [^], then
    ordinary characters and [.], each optionally followed by [*].  Any other
    special character makes [re_compile] fail; every pattern compiled below
    lies in the fragment. *)

Module MiniRe.

Inductive atom := Any | Chr (c : ascii).

Record item := { it_atom : atom; it_star : bool }.

Record prog := { at_start : bool; items : list item; ignorecase : bool }.

Definition is_special (c : ascii) : bool :=
  contains c (L "\^$.|?*+()[]{}").

Fixpoint parse_items (s : str) : option (list item) :=
  match s with
  | [] => Some []
  | c :: r =>
      if is_special c && negb (Ascii.eqb c "."%char) then None
      else
        let a := if Ascii.eqb c "."%char then Any else Chr c in
        match r with
        | c' :: r' =>
            if Ascii.eqb c' "*"%char
            then option_map (cons {| it_atom := a; it_star := true |})
                   (parse_items r')
            else option_map (cons {| it_atom := a; it_star := false |})
                   (parse_items r)
        | [] => Some [{| it_atom := a; it_star := false |}]
        end
  end.

Definition compile_prog (pattern : str) (ic : bool) : option prog :=
  match pattern with
  | c :: r =>
      if Ascii.eqb c "^"%char
      then option_map (fun l => {| at_start := true; items := l;
                                   ignorecase := ic |}) (parse_items r)
      else option_map (fun l => {| at_start := false; items := l;
                                   ignorecase := ic |}) (parse_items pattern)
  | [] => Some {| at_start := false; items := []; ignorecase := ic |}
  end.

Definition atom_matches (ic : bool) (a : atom) (c : ascii) : bool :=
  match a with
  | Any => negb (Ascii.eqb c "010"%char)
  | Chr x =>
      if ic then Ascii.eqb (lower_char x) (lower_char c) else Ascii.eqb x c
  end.

Fixpoint match_items (ic : bool) (its : list item) (s : str) : bool :=
  match its with
  | [] => true
  | it :: rest =>
      if it_star it then
        (fix star (s : str) : bool :=
           match_items ic rest s
           || match s with
              | c :: s' => atom_matches ic (it_atom it) c && star s'
              | [] => false
              end) s
      else
        match s with
        | c :: s' => atom_matches ic (it_atom it) c && match_items ic rest s'
        | [] => false
        end
  end.

Definition prog_match_at (p : prog) (s : str) (pos : nat) : bool :=
  if length s <? pos then false
  else if at_start p && negb (pos =? 0) then false
  else match_items (ignorecase p) (items p) (skipn pos s).

(** The program of a pattern made of ordinary characters only. *)
Definition literal (s : str) (ic : bool) : prog :=
  {| at_start := false;
     items := map (fun c => {| it_atom := Chr c; it_star := false |}) s;
     ignorecase := ic |}.

Definition engine : RegexEngine :=
  {| regex := prog; re_compile := compile_prog; match_at := prog_match_at |}.

End MiniRe.

(** ** A command that only reads the registry

    The facade is its parser; the per-unit action and the finalize hook leave
    it as it is. *)

Definition registry := Parser unit.

Definition reading_variant : Variant registry :=
  {| usage_str := L "show <unit-type> <unit-name>";
     execute_on_unit := fun _ _ w => Ok w;
     finish_execution := fun w => Ok w |}.

(** A command whose action removes the unit from its mapping, as [delete]
    does. *)
Definition remove_key {D} (name : str) (d : list (str * D)) : list (str * D) :=
  filter (fun kv => negb (str_eqb (fst kv) name)) d.

Definition deleting_variant : Variant registry :=
  {| usage_str := L "delete <unit-type> <unit-name>";
     execute_on_unit := fun unit_type unit_name w =>
       match unit_type with
       | Some alias =>
           Ok {| alias_definitions := remove_key unit_name (alias_definitions w);
                 slot_definitions := slot_definitions w;
                 intent_definitions := intent_definitions w |}
       | Some slot =>
           Ok {| alias_definitions := alias_definitions w;
                 slot_definitions := remove_key unit_name (slot_definitions w);
                 intent_definitions := intent_definitions w |}
       | Some intent =>
           Ok {| alias_definitions := alias_definitions w;
                 slot_definitions := slot_definitions w;
                 intent_definitions :=
                   remove_key unit_name (intent_definitions w) |}
       | None => Raise (ValueError (L "Unexpected unit type"))
       end;
     finish_execution := fun w => Ok w |}.

(** Running a command line on a registry with the small engine. *)
Definition run_line (V : Variant registry) (command_str : str) (w : registry)
  : result unit * state registry :=
  execute MiniRe.engine (fun w => w) V (init command_str false w).

Definition names (l : list str) : list (str * unit) :=
  map (fun n => (n, tt)) l.

(** ** What the specification says, in its own words *)

(** Whitespace collapsed: no leading or trailing whitespace, and one space for
    each run of whitespace between two words.  [started] tells that a word
    has been read, [pending] that whitespace has been read after it. *)
Fixpoint collapse_from (started pending : bool) (s : str) : str :=
  match s with
  | [] => []
  | c :: r =>
      if isspace c then collapse_from started started r
      else (if pending then [SPACE] else []) ++ c :: collapse_from true false r
  end.

Definition collapse_whitespace (s : str) : str := collapse_from false false s.

(** Every character [d] escaped by a backslash becomes [d]. *)
Fixpoint unescape (d : ascii) (body : str) : str :=
  match body with
  | [] => []
  | c :: r =>
      match r with
      | c' :: r' =>
          if Ascii.eqb c BACKSLASH && Ascii.eqb c' d
          then d :: unescape d r'
          else c :: unescape d r
      | [] => [c]
      end
  end.

(** Every escaped delimiter becomes a delimiter. *)
Definition unescape_delimiters (body : str) : str := unescape REGEX_SYM body.

(** One pair of surrounding double quotes stripped. *)
Definition strip_surrounding_quotes (text : str) : str :=
  if (2 <=? length text) && startswith text [DQUOTE] && endswith text [DQUOTE]
  then slice 1 1 text
  else text.

(** The literal name the specification gives a token. *)
Definition literal_name (text : str) : str :=
  unescape DQUOTE (strip_surrounding_quotes text).

(** The character at offset [-k] from the end, if there is one. *)
Definition char_from_end (text : str) (k : nat) : option ascii :=
  nth_error (rev text) (k - 1).

Definition is_delimiter_at (text : str) (k : nat) : bool :=
  match char_from_end text k with
  | Some c => Ascii.eqb c REGEX_SYM
  | None => false
  end.

(** The shape of a delimited regex: starts with the delimiter and ends with
    it, or has it at offset -2 or -3. *)
Definition delimited_shape (text : str) : bool :=
  match text with
  | c :: _ =>
      Ascii.eqb c REGEX_SYM
      && (is_delimiter_at text 1 || is_delimiter_at text 2
          || is_delimiter_at text 3)
  | [] => false
  end.

(** A text surrounded by one pair of double quotes. *)
Definition quoted (inner : str) : str := [DQUOTE] ++ inner ++ [DQUOTE].

(** ** Auxiliary notions *)

(** A word of [split]: not empty, and free of whitespace. *)
Definition word_ok (w : str) : Prop :=
  w <> [] /\ Forall (fun c => isspace c = false) w.

(** A space and the single-space join, or nothing for no word. *)
Definition prefix_space (ws : list str) : str :=
  match ws with
  | [] => []
  | _ => SPACE :: join [SPACE] ws
  end.

(** The words of a literal as the loop accumulates them, each followed by a
    space. *)
Definition spaced (ws : list str) : str :=
  concat (map (fun w => w ++ [SPACE]) ws).

(** A loop state with tokens put before its own. *)
Definition prepend (T : list str) (st : tok_state) : tok_state :=
  {| tokens := T ++ tokens st;
     current_token := current_token st;
     inside_token := inside_token st |}.

(** The state after [self._is_regex_global = b]. *)
Definition with_global {W} (b : bool) (st : state W) : state W :=
  snd (set_is_regex_global b st).

(** An instance on an empty registry, before any token is read. *)
Definition st0 : state registry :=
  init_tokens [] false
    {| alias_definitions := []; slot_definitions := [];
       intent_definitions := [] |}.

(** The events that are calls of the per-unit action, and of the finalize
    hook. *)
Definition is_action (e : event) : bool :=
  match e with
  | Execute_on_unit _ _ => true
  | _ => false
  end.

Definition is_finish (e : event) : bool :=
  match e with
  | Finish_execution => true
  | _ => false
  end.

Definition actions (l : list event) : list event := filter is_action l.

Definition finish_count (l : list event) : nat := length (filter is_finish l).

(** A registry to run commands on. *)
Definition example_registry : registry :=
  {| alias_definitions := names [L "foo"; L "xfoo"; L "Foobar"; L "xa/g"];
     slot_definitions := names [L "city"];
     intent_definitions := names [L "greet"; L "bye"; L "great"; L "regret"] |}.

(** The names of a mapping, in iteration order. *)
Definition keys {D} (d : list (str * D)) : list str := map fst d.

(** A per-unit action that returns and keeps the names of the mapping of
    unit type [t]: the condition under which the mapping may be iterated
    live. *)
Definition preserving {W D} (parser : W -> Parser D) (V : Variant W)
    (t : UnitType) : Prop :=
  forall (unit_name : str) (w : W),
  exists w',
    execute_on_unit V (Some t) unit_name w = Ok w'
    /\ keys (select t (parser w')) = keys (select t (parser w)).

(** A finalize hook that returns. *)
Definition finalize_returns {W} (V : Variant W) : Prop :=
  forall w : W, exists w', finish_execution V w = Ok w'.

(** ** Further notions *)

(** The words of one token: at least one, and several only when the first
    opens a literal. *)
Definition group_ok (g : list str) : Prop :=
  g <> []
  /\ Forall word_ok g
  /\ (1 < length g ->
      exists w rest, g = w :: rest /\ startswith w [DQUOTE] = true).

(** What the loop of [tokenize] has done with the words read so far: the
    tokens are the joins of [groups], and [g] are the words of the literal
    being read. *)
Definition loop_inv (st : tok_state) (groups : list (list str))
    (g : list str) : Prop :=
  tokens st = map (join [SPACE]) groups
  /\ current_token st = spaced g
  /\ inside_token st = negb (match g with [] => true | _ => false end)
  /\ Forall group_ok groups
  /\ Forall word_ok g
  /\ (g <> [] -> exists w rest, g = w :: rest /\ startswith w [DQUOTE] = true).

(** ** [CommandStrategy.get_all_matching_unit_name] *)

Section Snapshot.

Variable E : RegexEngine.
Variables W D : Type.
Variable parser : W -> Parser D.

(** The list of the names of the mapping that the regex matches, built at
    once: [regex.search] when [self._is_regex_global] is true, [regex.match]
    otherwise. *)
Definition get_all_matching_unit_name (unit_type : option UnitType)
    (rx : regex E) : M W (list str) :=
  fun st =>
    match relevant_dict unit_type (parser (facade st)) with
    | Raise e => (Raise e, st)
    | Ok d =>
        (Ok (filter (regex_test E (is_regex_global st) rx) (keys d)), st)
    end.

End Snapshot.

(** ** The sink and the rest of the instance *)

(** The instance with another sink. *)
Definition with_sink {W} (pw : TerminalWriter) (st : state W) : state W :=
  {| command_tokens := command_tokens st;
     print_wrapper := pw;
     is_regex_global := is_regex_global st;
     facade := facade st;
     trace := trace st |}.

(** A computation that neither reads nor changes the sink's configuration. *)
Definition oblivious {W A} (m : M W A) : Prop :=
  forall (pw : TerminalWriter) (st : state W),
    m (with_sink pw st) = (fst (m st), with_sink pw (snd (m st))).

(** * Properties *)

Unset Implicit Arguments.

(** ** Strings *)

Lemma str_eqb_eq (a b : str) : str_eqb a b = true <-> a = b.
Proof.
  revert b; induction a as [|x a IH]; intros [|y b]; simpl;
    try (split; [discriminate | congruence]); try tauto.
  rewrite andb_true_iff, Ascii.eqb_eq, IH.
  split; [intros [-> ->]; reflexivity | intros H; inversion H; auto].
Qed.

Lemma str_eqb_neq (a b : str) : str_eqb a b = false <-> a <> b.
Proof.
  rewrite <- str_eqb_eq. destruct (str_eqb a b); split; congruence.
Qed.

Lemma startswith_cons (c d : ascii) (s : str) :
  startswith (c :: s) [d] = Ascii.eqb c d.
Proof. unfold startswith. apply andb_true_r. Qed.

Lemma endswith_snoc (s : str) (c d : ascii) :
  endswith (s ++ [c]) [d] = Ascii.eqb c d.
Proof.
  unfold endswith. rewrite rev_app_distr. simpl rev at 1.
  simpl app. apply startswith_cons.
Qed.

Lemma index_neg_snoc1 {A} (l : list A) (x : A) : index_neg (l ++ [x]) 1 = Some x.
Proof.
  unfold index_neg. rewrite length_app. simpl length.
  replace (1 <=? length l + 1) with true by (symmetry; apply Nat.leb_le; lia).
  simpl. replace (length l + 1 - 1) with (length l) by lia.
  rewrite nth_error_app2 by lia. rewrite Nat.sub_diag. reflexivity.
Qed.

Lemma index_neg_snoc2 {A} (l : list A) (x y : A) :
  index_neg (l ++ [x; y]) 2 = Some x.
Proof.
  unfold index_neg. rewrite length_app. simpl length.
  replace (2 <=? length l + 2) with true by (symmetry; apply Nat.leb_le; lia).
  simpl. replace (length l + 2 - 2) with (length l) by lia.
  rewrite nth_error_app2 by lia. rewrite Nat.sub_diag. reflexivity.
Qed.

Lemma index_neg_snoc2' {A} (l : list A) (x y : A) :
  index_neg (l ++ [x; y]) 1 = Some y.
Proof.
  replace (l ++ [x; y]) with ((l ++ [x]) ++ [y])
    by (rewrite <- app_assoc; reflexivity).
  apply index_neg_snoc1.
Qed.

(** ** Whitespace splitting *)

Lemma flush_nonempty (cur : str) : cur <> [] -> flush cur = [cur].
Proof. destruct cur; [congruence | reflexivity]. Qed.

Lemma split_from_words (s cur : str) :
  Forall (fun c => isspace c = false) cur ->
  Forall word_ok (split_from cur s).
Proof.
  revert cur; induction s as [|c r IH]; intros cur Hcur; simpl.
  - destruct cur; constructor; [split; [discriminate | assumption] | constructor].
  - destruct (isspace c) eqn:Hc.
    + apply Forall_app; split; [| apply IH; constructor].
      destruct cur; constructor;
        [split; [discriminate | assumption] | constructor].
    + apply IH. apply Forall_app; split; [assumption | repeat constructor; assumption].
Qed.

Lemma split_words (s : str) : Forall word_ok (split s).
Proof. apply split_from_words; constructor. Qed.

Lemma split_from_chars (s cur : str) (w : str) (c : ascii) :
  In w (split_from cur s) -> In c w -> In c cur \/ In c s.
Proof.
  revert cur; induction s as [|x r IH]; intros cur Hw Hc; simpl in Hw.
  - destruct cur; simpl in Hw; [contradiction |].
    destruct Hw as [<- | []]. left; assumption.
  - destruct (isspace x).
    + apply in_app_or in Hw. destruct Hw as [Hw | Hw].
      * destruct cur; simpl in Hw; [contradiction |].
        destruct Hw as [<- | []]. left; assumption.
      * destruct (IH _ Hw Hc) as [[] | H]. right; right; assumption.
    + destruct (IH _ Hw Hc) as [H | H].
      * apply in_app_or in H. destruct H as [H | [<- | []]];
          [left; assumption | right; left; reflexivity].
      * right; right; assumption.
Qed.

Lemma split_chars (s w : str) (c : ascii) :
  In w (split s) -> In c w -> In c s.
Proof.
  intros Hw Hc. destruct (split_from_chars s [] w c Hw Hc) as [[] | H]; exact H.
Qed.

Lemma split_from_nonempty (s cur : str) : cur <> [] -> split_from cur s <> [].
Proof.
  revert cur; induction s as [|c r IH]; intros cur Hcur; simpl.
  - rewrite flush_nonempty by assumption. discriminate.
  - destruct (isspace c).
    + rewrite flush_nonempty by assumption. discriminate.
    + apply IH. destruct cur; discriminate.
Qed.

(** Reading a word that is free of whitespace extends the current run. *)
Lemma split_from_word (w cur s : str) :
  Forall (fun c => isspace c = false) w ->
  split_from cur (w ++ s) = split_from (cur ++ w) s.
Proof.
  revert cur; induction w as [|c w IH]; intros cur Hw; simpl.
  - rewrite app_nil_r; reflexivity.
  - inversion Hw as [|? ? Hc Hw']; subst. rewrite Hc.
    rewrite IH by assumption. rewrite <- app_assoc. reflexivity.
Qed.

(** Splitting the single-space join of well-formed words gives them back. *)
Lemma split_join (ws : list str) :
  Forall word_ok ws -> split (join [SPACE] ws) = ws.
Proof.
  unfold split. induction ws as [|w ws IH]; intros Hws; [reflexivity |].
  inversion Hws as [|? ? [Hne Hw] Hws']; subst.
  destruct ws as [|w' ws].
  - simpl. rewrite <- (app_nil_r w) at 1. rewrite split_from_word by assumption.
    simpl. apply flush_nonempty; assumption.
  - change (join [SPACE] (w :: w' :: ws))
      with (w ++ SPACE :: join [SPACE] (w' :: ws)).
    rewrite split_from_word by assumption.
    change (split_from ([] ++ w) (SPACE :: join [SPACE] (w' :: ws)))
      with (flush w ++ split_from [] (join [SPACE] (w' :: ws))).
    rewrite flush_nonempty by assumption. rewrite IH by assumption.
    reflexivity.
Qed.

Lemma join_cons (w : str) (ws : list str) :
  join [SPACE] (w :: ws) = w ++ prefix_space ws.
Proof. destruct ws; simpl; [rewrite app_nil_r |]; reflexivity. Qed.

(** The single-space join of the words of a string, read off the string. *)
Lemma join_split_from (s : str) :
  (forall cur, cur <> [] ->
     join [SPACE] (split_from cur s) = cur ++ collapse_from true false s)
  /\ join [SPACE] (split_from [] s) = collapse_from false false s
  /\ prefix_space (split_from [] s) = collapse_from true true s.
Proof.
  induction s as [|c r (IH1 & IH2 & IH3)].
  - repeat split; try reflexivity.
    intros cur Hcur. simpl. rewrite flush_nonempty by assumption.
    simpl. rewrite app_nil_r. reflexivity.
  - simpl. destruct (isspace c) eqn:Hc.
    + repeat split; try assumption.
      intros cur Hcur. rewrite flush_nonempty by assumption.
      simpl app. rewrite join_cons, IH3. reflexivity.
    + assert (H1 : forall cur,
                 join [SPACE] (split_from (cur ++ [c]) r)
                 = cur ++ c :: collapse_from true false r).
      { intros cur. rewrite IH1 by (destruct cur; discriminate).
        rewrite <- app_assoc. reflexivity. }
      repeat split.
      * intros cur _. apply H1.
      * apply (H1 []).
      * pose proof (@split_from_nonempty r [c] ltac:(discriminate)) as Hne.
        simpl app. destruct (split_from [c] r) eqn:Hs; [congruence |].
        unfold prefix_space. rewrite <- Hs. f_equal. apply (H1 []).
Qed.

Lemma join_split_collapse (s : str) :
  join [SPACE] (split s) = collapse_whitespace s.
Proof. apply (join_split_from s). Qed.

(** ** [rstrip] *)

Lemma rstrip_app (a b : str) :
  rstrip (a ++ b) = match rstrip b with [] => rstrip a | _ => a ++ rstrip b end.
Proof.
  induction a as [|c a IH]; simpl.
  - destruct (rstrip b); reflexivity.
  - rewrite IH. destruct (rstrip b) eqn:Hb; [reflexivity |].
    destruct a; reflexivity.
Qed.

Lemma rstrip_word (w : str) :
  Forall (fun c => isspace c = false) w -> rstrip w = w.
Proof.
  induction 1 as [|c w Hc _ IH]; simpl; [reflexivity |].
  rewrite IH, Hc. destruct w; reflexivity.
Qed.

Lemma rstrip_app_word (a w : str) : word_ok w -> rstrip (a ++ w) = a ++ w.
Proof.
  intros [Hne Hw]. rewrite rstrip_app, rstrip_word by assumption.
  destruct w; [congruence | reflexivity].
Qed.

Lemma rstrip_app_space (a : str) : rstrip (a ++ [SPACE]) = rstrip a.
Proof. rewrite rstrip_app. reflexivity. Qed.

(** ** The tokenizer's loop *)

Lemma spaced_join (ws : list str) :
  ws <> [] -> spaced ws = join [SPACE] ws ++ [SPACE].
Proof.
  induction ws as [|w ws IH]; intros Hne; [congruence |].
  destruct ws as [|w' ws]; [unfold spaced; simpl; rewrite app_nil_r; reflexivity |].
  change (spaced (w :: w' :: ws)) with ((w ++ [SPACE]) ++ spaced (w' :: ws)).
  rewrite IH by discriminate.
  change (join [SPACE] (w :: w' :: ws))
    with (w ++ [SPACE] ++ join [SPACE] (w' :: ws)).
  rewrite <- !app_assoc. reflexivity.
Qed.

Lemma join_snoc (ws : list str) (w : str) :
  ws <> [] -> join [SPACE] (ws ++ [w]) = join [SPACE] ws ++ SPACE :: w.
Proof.
  induction ws as [|x ws IH]; intros Hne; [congruence |].
  destruct ws as [|y ws]; [reflexivity |].
  change (join [SPACE] ((x :: y :: ws) ++ [w]))
    with (x ++ [SPACE] ++ join [SPACE] ((y :: ws) ++ [w])).
  rewrite IH by discriminate.
  change (join [SPACE] (x :: y :: ws))
    with (x ++ [SPACE] ++ join [SPACE] (y :: ws)).
  rewrite <- !app_assoc. reflexivity.
Qed.

(** The accumulated literal, trimmed, is the single-space join of its
    words. *)
Lemma rstrip_spaced (ws : list str) :
  ws <> [] -> Forall word_ok ws -> rstrip (spaced ws) = join [SPACE] ws.
Proof.
  intros Hne Hws. rewrite spaced_join by assumption. rewrite rstrip_app_space.
  destruct (exists_last Hne) as (ws' & w & ->).
  apply Forall_app in Hws. destruct Hws as [_ Hw].
  inversion Hw as [|? ? Hw' _]; subst.
  destruct ws' as [|x ws']; [apply rstrip_word, Hw' |].
  rewrite join_snoc by discriminate.
  change (SPACE :: w) with ([SPACE] ++ w). rewrite app_assoc.
  apply rstrip_app_word; assumption.
Qed.

(** Words that do not start with a double quote are tokens of their own. *)
Lemma loop_plain (pre : list str) (T : list str) (c : str) :
  Forall (fun w => startswith w [DQUOTE] = false) pre ->
  fold_left tokenize_step pre
    {| tokens := T; current_token := c; inside_token := false |}
  = {| tokens := T ++ pre; current_token := c; inside_token := false |}.
Proof.
  revert T; induction pre as [|w pre IH]; intros T Hpre; simpl.
  - rewrite app_nil_r; reflexivity.
  - inversion Hpre as [|? ? Hw Hpre']; subst.
    unfold tokenize_step at 2. simpl. rewrite Hw. simpl.
    rewrite IH by assumption. rewrite <- app_assoc. reflexivity.
Qed.

(** Inside a literal, words that do not end it are accumulated. *)
Lemma loop_inside (mid : list str) (T : list str) (c : str) :
  Forall (fun w => ends_literal w = false) mid ->
  fold_left tokenize_step mid
    {| tokens := T; current_token := c; inside_token := true |}
  = {| tokens := T; current_token := c ++ spaced mid; inside_token := true |}.
Proof.
  revert c; induction mid as [|w mid IH]; intros c Hmid; simpl.
  - unfold spaced. simpl. rewrite app_nil_r; reflexivity.
  - inversion Hmid as [|? ? Hw Hmid']; subst.
    unfold tokenize_step at 2. simpl. rewrite Hw.
    rewrite IH by assumption. unfold spaced. simpl.
    rewrite <- !app_assoc. reflexivity.
Qed.

(** The tokens found so far are only ever extended. *)
Lemma step_prepend (T : list str) (st : tok_state) (w : str) :
  tokenize_step (prepend T st) w = prepend T (tokenize_step st w).
Proof.
  unfold tokenize_step, prepend. simpl.
  destruct (inside_token st); simpl.
  - destruct (ends_literal w); simpl; [rewrite (app_assoc T) |]; reflexivity.
  - destruct (startswith w [DQUOTE] && ends_literal w); simpl;
      [rewrite (app_assoc T); reflexivity |].
    destruct (startswith w [DQUOTE]); simpl; [| rewrite (app_assoc T)]; reflexivity.
Qed.

Lemma loop_prepend (ws T : list str) (st : tok_state) :
  fold_left tokenize_step ws (prepend T st)
  = prepend T (fold_left tokenize_step ws st).
Proof.
  revert st; induction ws as [|w ws IH]; intros st; simpl; [reflexivity |].
  rewrite step_prepend. apply IH.
Qed.

Lemma tokenize_loop_prefix (ws T : list str) :
  tokenize_loop {| tokens := T; current_token := []; inside_token := false |} ws
  = T ++ tokenize_loop tok_init ws.
Proof.
  unfold tokenize_loop.
  replace {| tokens := T; current_token := []; inside_token := false |}
    with (prepend T tok_init)
    by (unfold prepend, tok_init; simpl; rewrite app_nil_r; reflexivity).
  rewrite loop_prepend. unfold prepend at 1 2 3. simpl.
  destruct (current_token _); [reflexivity | rewrite app_assoc; reflexivity].
Qed.

(** The two early returns of [tokenize] agree with its loop. *)
Lemma tokenize_eq_loop (s : str) : tokenize s = tokenize_loop tok_init (split s).
Proof.
  unfold tokenize. pose proof (split_words s) as Hw.
  destruct (split s) as [|w [|w' ws]]; try reflexivity.
  inversion Hw as [|? ? [Hne Hok] _]; subst.
  unfold tokenize_loop, tok_init. simpl. unfold tokenize_step. simpl.
  destruct (startswith w [DQUOTE]); simpl; [| reflexivity].
  destruct (ends_literal w); simpl; [reflexivity |].
  destruct w; [congruence |]. simpl app.
  change (a :: w ++ [SPACE]) with ((a :: w) ++ [SPACE]).
  rewrite rstrip_app_space, rstrip_word by assumption. reflexivity.
Qed.

Lemma tokenize_join (ws : list str) :
  Forall word_ok ws -> tokenize (join [SPACE] ws) = tokenize_loop tok_init ws.
Proof. intros H. rewrite tokenize_eq_loop, split_join by assumption. reflexivity. Qed.

(** A line without double quotes is tokenized into its words. *)
Lemma tokenize_unquoted (s : str) : ~ In DQUOTE s -> tokenize s = split s.
Proof.
  intros Hq. rewrite tokenize_eq_loop. unfold tokenize_loop, tok_init.
  rewrite loop_plain; [reflexivity |].
  apply Forall_forall. intros w Hw.
  destruct w as [|c w]; [reflexivity |]. rewrite startswith_cons.
  apply Ascii.eqb_neq. intros ->. apply Hq.
  apply (split_chars s (DQUOTE :: w)); [assumption | left; reflexivity].
Qed.

Lemma join_chars (ws : list str) (c : ascii) :
  In c (join [SPACE] ws) -> c = SPACE \/ exists w, In w ws /\ In c w.
Proof.
  induction ws as [|w ws IH]; [intros [] |].
  rewrite join_cons. intros H. apply in_app_or in H. destruct H as [H | H].
  - right. exists w. split; [left; reflexivity | assumption].
  - destruct ws as [|w' ws]; [destruct H |].
    destruct H as [<- | H]; [left; reflexivity |].
    destruct (IH H) as [-> | (x & Hx & Hc)]; [left; reflexivity |].
    right. exists x. split; [right; assumption | assumption].
Qed.

(** ** The tokenizer *)

Lemma tokenize_loop_app (st : tok_state) (a b : list str) :
  tokenize_loop st (a ++ b) = tokenize_loop (fold_left tokenize_step a st) b.
Proof. unfold tokenize_loop. rewrite fold_left_app. reflexivity. Qed.

Lemma tokenize_loop_cons (st : tok_state) (w : str) (ws : list str) :
  tokenize_loop st (w :: ws) = tokenize_loop (tokenize_step st w) ws.
Proof. reflexivity. Qed.

Lemma step_opens (T : list str) (w0 : str) :
  startswith w0 [DQUOTE] = true ->
  ends_literal w0 = false ->
  tokenize_step
    {| tokens := T; current_token := []; inside_token := false |} w0
  = {| tokens := T; current_token := w0 ++ [SPACE]; inside_token := true |}.
Proof. intros H0 H0'. unfold tokenize_step. simpl. rewrite H0, H0'. reflexivity. Qed.

Lemma step_ends (T : list str) (c wl : str) :
  ends_literal wl = true ->
  tokenize_step
    {| tokens := T; current_token := c; inside_token := true |} wl
  = {| tokens := T ++ [rstrip (c ++ wl ++ [SPACE])]; current_token := [];
       inside_token := false |}.
Proof. intros Hl. unfold tokenize_step. simpl. rewrite Hl. reflexivity. Qed.

(** The loop on a literal of several words: the words before it are plain,
    [w0] opens it, [wl] ends it. *)
Lemma tokenize_loop_merge (pre mid post : list str) (w0 wl : str) :
  Forall word_ok (w0 :: mid ++ [wl]) ->
  Forall (fun w => startswith w [DQUOTE] = false) pre ->
  startswith w0 [DQUOTE] = true ->
  ends_literal w0 = false ->
  Forall (fun w => ends_literal w = false) mid ->
  ends_literal wl = true ->
  tokenize_loop tok_init (pre ++ w0 :: mid ++ wl :: post)
  = pre ++ [join [SPACE] (w0 :: mid ++ [wl])] ++ tokenize_loop tok_init post.
Proof.
  intros Hok Hpre H0 H0' Hmid Hl.
  rewrite tokenize_loop_app. unfold tok_init at 1.
  rewrite loop_plain by assumption. simpl app at 1.
  rewrite tokenize_loop_cons, step_opens by assumption.
  rewrite tokenize_loop_app, loop_inside by assumption.
  rewrite tokenize_loop_cons, step_ends by assumption.
  rewrite tokenize_loop_prefix. rewrite <- app_assoc. do 2 f_equal.
  replace ((w0 ++ [SPACE]) ++ spaced mid) with (spaced (w0 :: mid))
    by (unfold spaced; simpl; rewrite <- app_assoc; reflexivity).
  replace (spaced (w0 :: mid) ++ wl ++ [SPACE])
    with (spaced ((w0 :: mid) ++ [wl])).
  - rewrite rstrip_spaced; [reflexivity | discriminate | assumption].
  - unfold spaced. rewrite map_app, concat_app. simpl.
    rewrite app_nil_r. reflexivity.
Qed.

(** The loop on a literal that is never ended. *)
Lemma tokenize_loop_unterminated (pre mid : list str) (w0 : str) :
  Forall word_ok (w0 :: mid) ->
  Forall (fun w => startswith w [DQUOTE] = false) pre ->
  startswith w0 [DQUOTE] = true ->
  ends_literal w0 = false ->
  Forall (fun w => ends_literal w = false) mid ->
  tokenize_loop tok_init (pre ++ w0 :: mid)
  = pre ++ [join [SPACE] (w0 :: mid)].
Proof.
  intros Hok Hpre H0 H0' Hmid.
  rewrite tokenize_loop_app. unfold tok_init.
  rewrite loop_plain by assumption. simpl app at 1.
  rewrite tokenize_loop_cons, step_opens by assumption.
  unfold tokenize_loop. rewrite loop_inside by assumption. simpl.
  replace ((w0 ++ [SPACE]) ++ spaced mid) with (spaced (w0 :: mid))
    by (unfold spaced; simpl; rewrite <- app_assoc; reflexivity).
  assert (Hne : spaced (w0 :: mid) <> []).
  { rewrite spaced_join by discriminate.
    destruct (join [SPACE] (w0 :: mid)); discriminate. }
  destruct (spaced (w0 :: mid)) eqn:Hs; [congruence |]. rewrite <- Hs.
  rewrite rstrip_spaced; [reflexivity | discriminate | assumption].
Qed.

Lemma Forall_word_ok_parts (a b : list str) (w : str) :
  Forall word_ok (a ++ w :: b) ->
  Forall word_ok a /\ word_ok w /\ Forall word_ok b.
Proof.
  intros H. apply Forall_app in H. destruct H as [Ha H].
  inversion H; subst. auto.
Qed.

(** C8. [tokenize] splits the line on whitespace and merges the words of one
    double-quoted literal into one token, joined by single spaces and without
    trailing whitespace: the line [set slot "multi word" value] gives the four
    tokens [set], [slot], ["multi word"], [value]; whenever the words of the
    line are plain words [pre], a word [w0] opening a literal, words [mid] not
    ending it and a word [wl] ending it, the tokens are [pre], the single-space
    join of [w0], [mid] and [wl], and the tokens of the words after them; and
    when no word ends the literal, what was accumulated is the last token. *)
Theorem tokenize_merges_quoted_literals :
  tokenize (L "set slot " ++ quoted (L "multi word") ++ L " value")
  = [L "set"; L "slot"; quoted (L "multi word"); L "value"]
  /\ (forall (command_str : str) (pre mid post : list str) (w0 wl : str),
        split command_str = pre ++ w0 :: mid ++ wl :: post ->
        Forall (fun w => startswith w [DQUOTE] = false) pre ->
        startswith w0 [DQUOTE] = true ->
        ends_literal w0 = false ->
        Forall (fun w => ends_literal w = false) mid ->
        ends_literal wl = true ->
        tokenize command_str
        = pre ++ [join [SPACE] (w0 :: mid ++ [wl])]
              ++ tokenize (join [SPACE] post))
  /\ (forall (command_str : str) (pre mid : list str) (w0 : str),
        split command_str = pre ++ w0 :: mid ->
        Forall (fun w => startswith w [DQUOTE] = false) pre ->
        startswith w0 [DQUOTE] = true ->
        ends_literal w0 = false ->
        Forall (fun w => ends_literal w = false) mid ->
        tokenize command_str = pre ++ [join [SPACE] (w0 :: mid)]).
Proof.
  split; [vm_compute; reflexivity | split].
  - intros s pre mid post w0 wl Hs Hpre H0 H0' Hmid Hl.
    pose proof (split_words s) as Hok. rewrite Hs in Hok.
    apply Forall_word_ok_parts in Hok. destruct Hok as (_ & Hw0 & Hok).
    apply Forall_word_ok_parts in Hok. destruct Hok as (Hm & Hwl & Hpost).
    rewrite tokenize_eq_loop, Hs, tokenize_join by assumption.
    apply tokenize_loop_merge; try assumption.
    constructor; [assumption |].
    apply Forall_app; split; [assumption | constructor; [assumption | constructor]].
  - intros s pre mid w0 Hs Hpre H0 H0' Hmid.
    pose proof (split_words s) as Hok. rewrite Hs in Hok.
    apply Forall_word_ok_parts in Hok. destruct Hok as (_ & Hw0 & Hm).
    rewrite tokenize_eq_loop, Hs.
    apply tokenize_loop_unterminated; try assumption.
    constructor; assumption.
Qed.

Lemma tokenize_merges_quoted_literals_witness :
  tokenize (L "say " ++ [DQUOTE] ++ L "a  b c" ++ [DQUOTE] ++ L " d " ++ [DQUOTE] ++ L "e")
  = [L "say"] ++ [join [SPACE] ((DQUOTE :: L "a") :: [L "b"] ++ [L "c" ++ [DQUOTE]])]
      ++ tokenize (join [SPACE] [L "d"; DQUOTE :: L "e"])
  /\ tokenize (L "say " ++ [DQUOTE] ++ L "a  b c ")
     = [L "say"] ++ [join [SPACE] [DQUOTE :: L "a"; L "b"; L "c"]].
Proof.
  destruct tokenize_merges_quoted_literals as (_ & Hmerge & Hopen).
  split.
  - apply (Hmerge _ [L "say"] [L "b"] [L "d"; DQUOTE :: L "e"]
             (DQUOTE :: L "a") (L "c" ++ [DQUOTE]));
      try reflexivity; repeat constructor.
  - apply (Hopen _ [L "say"] [L "b"; L "c"] (DQUOTE :: L "a"));
      try reflexivity; repeat constructor.
Defined.

(** C9. For a line without double quotes, the tokens joined by single spaces
    are the line with its whitespace collapsed (no whitespace at either end,
    one space for each run of whitespace inside), and tokenizing that join
    gives the same tokens again. *)
Theorem tokenize_rejoin_roundtrip (command_str : str) :
  ~ In DQUOTE command_str ->
  join [SPACE] (tokenize command_str) = collapse_whitespace command_str
  /\ tokenize (join [SPACE] (tokenize command_str)) = tokenize command_str.
Proof.
  intros Hq. rewrite (tokenize_unquoted _ Hq). split.
  - apply join_split_collapse.
  - rewrite tokenize_unquoted.
    + apply split_join, split_words.
    + intros Hin. apply join_chars in Hin.
      destruct Hin as [H | (w & Hw & Hc)]; [discriminate |].
      apply Hq. apply (split_chars command_str w); assumption.
Qed.

Lemma tokenize_rejoin_roundtrip_witness :
  join [SPACE] (tokenize (L "  show   alias  greet "))
  = collapse_whitespace (L "  show   alias  greet ")
  /\ tokenize (join [SPACE] (tokenize (L "  show   alias  greet ")))
     = tokenize (L "  show   alias  greet ").
Proof.
  apply (@tokenize_rejoin_roundtrip (L "  show   alias  greet ")).
  vm_compute. intros H.
  repeat (destruct H as [H | H]; [discriminate |]). exact H.
Defined.

(** ** Redirections *)

Lemma length_ge3 {A} (pre : list A) (x y : A) :
  3 <= length (pre ++ [x; y]) -> (length (pre ++ [x; y]) <? 3) = false.
Proof. intros H. apply Nat.ltb_ge. exact H. Qed.

Lemma slice_0_2 {A} (pre : list A) (x y : A) : slice 0 2 (pre ++ [x; y]) = pre.
Proof.
  unfold slice. simpl skipn. rewrite length_app. simpl length.
  replace (length pre + 2 - 0 - 2) with (length pre + 0) by lia.
  rewrite firstn_app_2. simpl. apply app_nil_r.
Qed.

Lemma slice_0_1 {A} (pre : list A) (x : A) : slice 0 1 (pre ++ [x]) = pre.
Proof.
  unfold slice. simpl skipn. rewrite length_app. simpl length.
  replace (length pre + 1 - 0 - 1) with (length pre + 0) by lia.
  rewrite firstn_app_2. simpl. apply app_nil_r.
Qed.

Lemma is_operator_false (t : str) :
  t <> REDIRECTION_APPEND_SYM -> t <> REDIRECTION_SYM ->
  str_eqb t REDIRECTION_APPEND_SYM = false /\ str_eqb t REDIRECTION_SYM = false.
Proof. intros H1 H2. split; apply str_eqb_neq; assumption. Qed.

(** The tails that the detection tells apart, as the code decides them.
    With at least three tokens, a tail [>> path] is detected as
    [(append, path)], a tail [> path] as [(truncate, path)], and a last token
    [>>] or [>] that is not itself the path of an operator before it as the
    pair [(None, None)] of a redirection to nowhere; the tokens of the
    redirection are removed from the command.  With fewer than three tokens,
    or a tail of none of these shapes, nothing is detected and the tokens are
    kept. *)
Theorem find_redirection_file_path_shapes :
  (forall (pre : list str) (path : str),
      3 <= length (pre ++ [REDIRECTION_APPEND_SYM; path]) ->
      find_redirection_file_path (pre ++ [REDIRECTION_APPEND_SYM; path])
      = Some (Some append, Some path)
      /\ remove_redirection_tokens (pre ++ [REDIRECTION_APPEND_SYM; path]) = pre)
  /\ (forall (pre : list str) (path : str),
      3 <= length (pre ++ [REDIRECTION_SYM; path]) ->
      find_redirection_file_path (pre ++ [REDIRECTION_SYM; path])
      = Some (Some truncate, Some path)
      /\ remove_redirection_tokens (pre ++ [REDIRECTION_SYM; path]) = pre)
  /\ (forall (pre : list str) (t op : str),
      3 <= length (pre ++ [t; op]) ->
      op = REDIRECTION_APPEND_SYM \/ op = REDIRECTION_SYM ->
      t <> REDIRECTION_APPEND_SYM -> t <> REDIRECTION_SYM ->
      find_redirection_file_path (pre ++ [t; op]) = Some (None, None)
      /\ remove_redirection_tokens (pre ++ [t; op]) = pre ++ [t])
  /\ (forall (W : Type) (toks : list str) (q : bool) (w : W),
      length toks < 3 ->
      find_redirection_file_path toks = None
      /\ command_tokens (init_tokens toks q w) = toks)
  /\ (forall (W : Type) (pre : list str) (t2 t1 : str) (q : bool) (w : W),
      t2 <> REDIRECTION_APPEND_SYM -> t2 <> REDIRECTION_SYM ->
      t1 <> REDIRECTION_APPEND_SYM -> t1 <> REDIRECTION_SYM ->
      find_redirection_file_path (pre ++ [t2; t1]) = None
      /\ command_tokens (init_tokens (pre ++ [t2; t1]) q w) = pre ++ [t2; t1]).
Proof.
  repeat split.
  - unfold find_redirection_file_path.
    rewrite length_ge3, index_neg_snoc2, index_neg_snoc2' by assumption.
    reflexivity.
  - unfold remove_redirection_tokens. rewrite index_neg_snoc2.
    simpl. apply slice_0_2.
  - unfold find_redirection_file_path.
    rewrite length_ge3, index_neg_snoc2, index_neg_snoc2' by assumption.
    reflexivity.
  - unfold remove_redirection_tokens. rewrite index_neg_snoc2.
    simpl. apply slice_0_2.
  - unfold find_redirection_file_path.
    rewrite length_ge3, index_neg_snoc2, index_neg_snoc2' by assumption.
    destruct (is_operator_false _ H1 H2) as [-> ->].
    destruct H0 as [-> | ->]; reflexivity.
  - unfold remove_redirection_tokens. rewrite index_neg_snoc2.
    destruct (is_operator_false _ H1 H2) as [-> ->]. simpl.
    replace (pre ++ [t; op]) with ((pre ++ [t]) ++ [op])
      by (rewrite <- app_assoc; reflexivity).
    apply slice_0_1.
  - unfold find_redirection_file_path.
    apply Nat.ltb_lt in H. rewrite H. reflexivity.
  - unfold init_tokens, find_redirection_file_path.
    apply Nat.ltb_lt in H. rewrite H. reflexivity.
  - unfold find_redirection_file_path.
    rewrite index_neg_snoc2, index_neg_snoc2'.
    destruct (is_operator_false _ H H0) as [-> ->].
    destruct (is_operator_false _ H1 H2) as [-> ->].
    destruct (_ <? 3); reflexivity.
  - unfold init_tokens, find_redirection_file_path.
    rewrite index_neg_snoc2, index_neg_snoc2'.
    destruct (is_operator_false _ H H0) as [-> ->].
    destruct (is_operator_false _ H1 H2) as [-> ->].
    destruct (_ <? 3); reflexivity.
Qed.

Lemma find_redirection_file_path_shapes_witness :
  find_redirection_file_path [L "a"; L "b"; L ">>"; L "out.txt"]
  = Some (Some append, Some (L "out.txt"))
  /\ find_redirection_file_path [L "a"; L "b"; L ">"; L "out.txt"]
     = Some (Some truncate, Some (L "out.txt"))
  /\ find_redirection_file_path [L "a"; L "b"; L ">"] = Some (None, None)
  /\ find_redirection_file_path [L ">>"; L "out.txt"] = None
  /\ find_redirection_file_path [L "show"; L "alias"; L "x"] = None.
Proof.
  destruct find_redirection_file_path_shapes as (H1 & H2 & H3 & H4 & H5).
  split; [| split; [| split; [| split]]].
  - apply (H1 [L "a"; L "b"] (L "out.txt")). simpl; lia.
  - apply (H2 [L "a"; L "b"] (L "out.txt")). simpl; lia.
  - apply (H3 [L "a"] (L "b") (L ">"));
      [simpl; lia | right; reflexivity | discriminate | discriminate].
  - apply (H4 unit [L ">>"; L "out.txt"] false tt). simpl; lia.
  - apply (H5 unit [L "show"] (L "alias") (L "x") false tt); discriminate.
Defined.

(** C3, on the code.  On a last token that is a lone operator,
    [find_redirection_file_path] returns the pair [(None, None)]: the type of
    the redirection is [None], not an item of [RedirectionType], where the
    item that asks for no output is [quiet].  [__init__] then hands the class
    the type and the path it hands it for a line without redirection, and not
    those of the quiet sink. *)
Theorem bare_operator_gives_no_redirection_type (W : Type) (w : W) :
  find_redirection_file_path [L "a"; L "b"; L ">"] = Some (None, None)
  /\ find_redirection_file_path [L "a"; L "b"; L ">>"] = Some (None, None)
  /\ print_wrapper (init_tokens [L "a"; L "b"; L ">"] false w)
     = print_wrapper (init_tokens [L "a"; L "b"] false w)
  /\ redirection_type (print_wrapper (init_tokens [L "a"; L "b"; L ">"]
                                        false w))
     = None
  /\ redirection_type (print_wrapper (init_tokens [L "a"; L "b"] true w))
     = Some quiet.
Proof. repeat split. Qed.

(** ** The shape of a delimited regex *)

Lemma index_neg_char_from_end (text : str) (k : nat) :
  1 <= k -> index_neg text k = char_from_end text k.
Proof.
  intros Hk. unfold index_neg, char_from_end. rewrite nth_error_rev.
  replace (1 <=? k) with true by (symmetry; apply Nat.leb_le; exact Hk).
  rewrite andb_true_r. replace (S (k - 1)) with k by lia.
  destruct (Nat.leb_spec k (length text)) as [H | H];
    destruct (Nat.ltb_spec (k - 1) (length text)) as [H' | H'];
    try reflexivity; lia.
Qed.

Lemma endswith_char_from_end (text : str) (c : ascii) :
  endswith text [c]
  = match char_from_end text 1 with
    | Some x => Ascii.eqb x c
    | None => false
    end.
Proof.
  unfold endswith, char_from_end. simpl rev at 2.
  destruct (rev text) as [|x r]; [reflexivity | apply startswith_cons].
Qed.

(** The test of the source never raises, and is the shape. *)
Lemma regex_shape_delimited (text : str) :
  regex_shape text = Ok (delimited_shape text).
Proof.
  unfold regex_shape, delimited_shape.
  destruct text as [|c t]; [reflexivity |].
  rewrite startswith_cons.
  destruct (Ascii.eqb c REGEX_SYM) eqn:Hc; [| reflexivity].
  cbn [negb andb]. unfold is_delimiter_at.
  rewrite endswith_char_from_end.
  rewrite !index_neg_char_from_end by lia.
  assert (Hlen : length (rev (c :: t)) = S (length t))
    by (rewrite length_rev; reflexivity).
  unfold char_from_end. cbn [Nat.sub].
  destruct (nth_error (rev (c :: t)) 0) as [x1|] eqn:H1;
    [| apply nth_error_None in H1; lia].
  destruct (Ascii.eqb x1 REGEX_SYM) eqn:Hx1; [reflexivity |]. cbn [orb].
  destruct (nth_error (rev (c :: t)) 1) as [x2|] eqn:H2.
  - destruct (Ascii.eqb x2 REGEX_SYM) eqn:Hx2; [reflexivity |]. cbn [orb].
    destruct (nth_error (rev (c :: t)) 2) as [x3|] eqn:H3; [reflexivity |].
    exfalso. apply nth_error_None in H3.
    destruct t as [|a [|b t]]; simpl in *; try lia.
    inversion H2; subst. congruence.
  - exfalso. apply nth_error_None in H2.
    destruct t as [|a t]; simpl in *; try lia.
    inversion H1; subst. congruence.
Qed.

(** ** Unescaping *)

Lemma replace_unescape_bounded (d : ascii) (n : nat) (body : str) :
  length body <= n ->
  replace [BACKSLASH; d] [d] body = unescape d body.
Proof.
  unfold replace. revert body.
  induction n as [|n IH]; intros body Hn.
  - destruct body; [reflexivity | simpl in Hn; lia].
  - destruct body as [|c [|c' r]]; [reflexivity | |].
    + unfold replace_from, startswith. rewrite andb_false_r. reflexivity.
    + simpl in Hn.
      change (replace_from [BACKSLASH; d] [d] 0 (c :: c' :: r))
        with (if Ascii.eqb c BACKSLASH && (Ascii.eqb c' d && true)
              then d :: replace_from [BACKSLASH; d] [d] 0 r
              else c :: replace_from [BACKSLASH; d] [d] 0 (c' :: r)).
      change (unescape d (c :: c' :: r))
        with (if Ascii.eqb c BACKSLASH && Ascii.eqb c' d
              then d :: unescape d r
              else c :: unescape d (c' :: r)).
      rewrite andb_true_r.
      rewrite (IH r) by lia. rewrite (IH (c' :: r)) by (simpl; lia).
      reflexivity.
Qed.

(** What [replace] does is what the specification asks for. *)
Lemma replace_unescape (d : ascii) (body : str) :
  replace [BACKSLASH; d] [d] body = unescape d body.
Proof. apply (replace_unescape_bounded d (length body)). apply Nat.le_refl. Qed.

Lemma unescape_regex_sym_spec (body : str) :
  unescape_regex_sym body = unescape_delimiters body.
Proof. apply replace_unescape. Qed.

(** ** Splitting on the delimiter *)

Lemma split_on_from_app (sep : ascii) (a b cur : str) :
  split_on_from sep cur (a ++ sep :: b)
  = split_on_from sep cur a ++ split_on_from sep [] b.
Proof.
  revert cur; induction a as [|c a IH]; intros cur; simpl.
  - rewrite Ascii.eqb_refl. reflexivity.
  - destruct (Ascii.eqb c sep); rewrite IH; reflexivity.
Qed.

Lemma split_on_from_free (sep : ascii) (f cur : str) :
  ~ In sep f -> split_on_from sep cur f = [cur ++ f].
Proof.
  revert cur; induction f as [|c f IH]; intros cur Hf; simpl.
  - rewrite app_nil_r; reflexivity.
  - destruct (Ascii.eqb c sep) eqn:Hc.
    + apply Ascii.eqb_eq in Hc. subst. exfalso. apply Hf. left; reflexivity.
    + rewrite IH by (intros H; apply Hf; right; exact H).
      rewrite <- app_assoc. reflexivity.
Qed.

Lemma split_on_from_fields (sep : ascii) (s cur w : str) :
  In w (split_on_from sep cur s) -> ~ In sep cur -> ~ In sep w.
Proof.
  revert cur; induction s as [|c s IH]; intros cur Hw Hcur; simpl in Hw.
  - destruct Hw as [<- | []]. exact Hcur.
  - destruct (Ascii.eqb c sep) eqn:Hc.
    + destruct Hw as [<- | Hw]; [exact Hcur |].
      apply (IH [] Hw). intros [].
    + apply (IH (cur ++ [c]) Hw). intros H. apply in_app_or in H.
      destruct H as [H | [<- | []]]; [exact (Hcur H) |].
      rewrite Ascii.eqb_refl in Hc. discriminate.
Qed.

Lemma split_on_from_covers (sep : ascii) (s cur : str) (c : ascii) :
  In c cur \/ In c s -> c <> sep ->
  exists w, In w (split_on_from sep cur s) /\ In c w.
Proof.
  revert cur; induction s as [|x s IH]; intros cur Hc Hne; simpl.
  - destruct Hc as [Hc | []]. exists cur. split; [left; reflexivity | exact Hc].
  - destruct (Ascii.eqb x sep) eqn:Hx.
    + apply Ascii.eqb_eq in Hx. subst x.
      destruct Hc as [Hc | [Hc | Hc]].
      * exists cur. split; [left; reflexivity | exact Hc].
      * congruence.
      * destruct (IH [] (or_intror Hc) Hne) as (w & Hw & Hin).
        exists w. split; [right; exact Hw | exact Hin].
    + apply IH; [| exact Hne].
      destruct Hc as [Hc | [Hc | Hc]].
      * left. apply in_or_app. left; exact Hc.
      * left. apply in_or_app. right. left. exact Hc.
      * right; exact Hc.
Qed.

(** The non-empty segments of a delimited text [/body/flags] are those of the
    body, then the flags. *)
Lemma splitted_str_delimited (body flags : str) :
  ~ In REGEX_SYM flags ->
  splitted_str (REGEX_SYM :: body ++ REGEX_SYM :: flags)
  = splitted_str body ++ match flags with [] => [] | _ => [flags] end.
Proof.
  intros Hf. unfold splitted_str, split_on.
  change (split_on_from REGEX_SYM [] (REGEX_SYM :: body ++ REGEX_SYM :: flags))
    with ([] :: split_on_from REGEX_SYM [] (body ++ REGEX_SYM :: flags)).
  rewrite split_on_from_app, (split_on_from_free REGEX_SYM flags [] Hf).
  cbn [filter str_eqb negb]. rewrite filter_app. f_equal.
  destruct flags; reflexivity.
Qed.

Lemma splitted_str_segment (text w : str) :
  In w (splitted_str text) -> w <> [] /\ ~ In REGEX_SYM w.
Proof.
  unfold splitted_str. intros H. apply filter_In in H. destruct H as [Hw Hne].
  split.
  - apply negb_true_iff, str_eqb_neq in Hne. exact Hne.
  - apply (split_on_from_fields _ _ _ _ Hw). intros [].
Qed.

Lemma splitted_str_nonempty (body : str) (c : ascii) :
  In c body -> c <> REGEX_SYM -> splitted_str body <> [].
Proof.
  intros Hc Hne.
  destruct (split_on_from_covers REGEX_SYM body [] c (or_intror Hc) Hne)
    as (w & Hw & Hin).
  assert (H : In w (splitted_str body)).
  { unfold splitted_str. apply filter_In. split; [exact Hw |].
    destruct w; [destruct Hin | reflexivity]. }
  intros E. rewrite E in H. destruct H.
Qed.

(** ** [endswith], [rchop] and slices *)

Lemma startswith_app (p s : str) : startswith (p ++ s) p = true.
Proof.
  induction p as [|c p IH]; [reflexivity |].
  cbn [app]. unfold startswith. fold startswith.
  rewrite Ascii.eqb_refl. exact IH.
Qed.

Lemma endswith_app (a f : str) : endswith (a ++ f) f = true.
Proof. unfold endswith. rewrite rev_app_distr. apply startswith_app. Qed.

Lemma rchop_app (a f : str) : rchop (a ++ f) f = a.
Proof.
  unfold rchop. rewrite endswith_app, length_app.
  replace (length a + length f - length f) with (length a + 0) by lia.
  rewrite firstn_app_2. simpl. apply app_nil_r.
Qed.

Lemma endswith_other (a f : str) (c : ascii) :
  f <> [] -> ~ In c f -> endswith (a ++ [c]) f = false.
Proof.
  intros Hne Hc. destruct (exists_last Hne) as (f' & d & ->).
  unfold endswith. rewrite !rev_app_distr. cbn [rev app].
  unfold startswith. fold startswith.
  replace (Ascii.eqb c d) with false; [reflexivity |].
  symmetry. apply Ascii.eqb_neq. intros ->. apply Hc.
  apply in_or_app. right. left. reflexivity.
Qed.

Lemma rchop_other (a f : str) (c : ascii) :
  f <> [] -> ~ In c f -> rchop (a ++ [c]) f = a ++ [c].
Proof. intros Hne Hc. unfold rchop. rewrite endswith_other by assumption. reflexivity. Qed.

Lemma slice_1_1 {A} (x y : A) (l : list A) : slice 1 1 (x :: l ++ [y]) = l.
Proof.
  unfold slice. cbn [skipn length]. rewrite length_app. cbn [length].
  replace (S (length l + 1) - 1 - 1) with (length l + 0) by lia.
  rewrite firstn_app_2. simpl. apply app_nil_r.
Qed.

Lemma index_neg_last {A} (l : list A) :
  l <> [] -> exists l' x, l = l' ++ [x] /\ index_neg l 1 = Some x.
Proof.
  intros Hne. destruct (exists_last Hne) as (l' & x & ->).
  exists l', x. split; [reflexivity | apply index_neg_snoc1].
Qed.

(** ** [get_name_as_regex] *)

(** The method, case by case. *)
Lemma get_name_as_regex_cases (E : RegexEngine) (W : Type) (text : str)
    (st : state W) :
  get_name_as_regex E text st
  = if delimited_shape text then
      if length (splitted_str text) =? 1 then
        compile E (unescape_delimiters (slice 1 1 text)) false st
      else
        match index_neg (splitted_str text) 1 with
        | None => (Raise IndexError, st)
        | Some flags =>
            compile E (unescape_delimiters (slice 1 1 (rchop text flags)))
              (contains "i"%char flags)
              (with_global (contains "g"%char flags) st)
        end
    else (Ok None, st).
Proof.
  unfold get_name_as_regex, bind. rewrite regex_shape_delimited.
  cbn [lift_result ret].
  destruct (delimited_shape text); [| reflexivity].
  destruct (length (splitted_str text) =? 1);
    [rewrite unescape_regex_sym_spec; reflexivity |].
  destruct (index_neg (splitted_str text) 1) as [flags|]; [| reflexivity].
  cbn [lift_option ret]. unfold with_global, set_is_regex_global.
  cbn [snd]. rewrite unescape_regex_sym_spec.
  destruct (contains "i"%char flags); reflexivity.
Qed.

Lemma compile_not_none (E : RegexEngine) (W : Type) (p : str) (ic : bool)
    (st : state W) :
  fst (compile E p ic st) <> Ok None.
Proof.
  unfold compile. destruct (re_compile E p ic); simpl; discriminate.
Qed.

Lemma delimited_shape_flags (body flags : str) :
  length flags <= 2 ->
  delimited_shape (REGEX_SYM :: body ++ REGEX_SYM :: flags) = true.
Proof.
  intros Hl. unfold delimited_shape. rewrite Ascii.eqb_refl. cbn [andb].
  unfold is_delimiter_at, char_from_end.
  replace (rev (REGEX_SYM :: body ++ REGEX_SYM :: flags))
    with (rev flags ++ REGEX_SYM :: rev body ++ [REGEX_SYM])
    by (cbn [rev]; rewrite rev_app_distr; cbn [rev];
        rewrite <- !app_assoc; reflexivity).
  destruct flags as [|f1 [|f2 [|f3 flags]]]; [| | | simpl in Hl; lia].
  - reflexivity.
  - cbn [rev app Nat.sub nth_error]. rewrite Ascii.eqb_refl.
    destruct (Ascii.eqb f1 REGEX_SYM); reflexivity.
  - cbn [rev app Nat.sub nth_error]. rewrite Ascii.eqb_refl.
    destruct (Ascii.eqb f2 REGEX_SYM), (Ascii.eqb f1 REGEX_SYM); reflexivity.
Qed.

(** On a text [/body/flags] whose body has a character other than the
    delimiter, the pattern compiled is the unescaped body. *)
Lemma get_name_as_regex_body (E : RegexEngine) (W : Type) (body flags : str)
    (st : state W) :
  ~ In REGEX_SYM flags ->
  length flags <= 2 ->
  (exists c, In c body /\ c <> REGEX_SYM) ->
  exists ic st',
    get_name_as_regex E (REGEX_SYM :: body ++ REGEX_SYM :: flags) st
    = compile E (unescape_delimiters body) ic st'.
Proof.
  intros Hf Hl (c & Hc & Hne).
  rewrite get_name_as_regex_cases, delimited_shape_flags by exact Hl.
  rewrite splitted_str_delimited by exact Hf.
  pose proof (splitted_str_nonempty body c Hc Hne) as Hsegs.
  destruct flags as [|f1 flags].
  - rewrite app_nil_r.
    replace (REGEX_SYM :: body ++ [REGEX_SYM])
      with ((REGEX_SYM :: body) ++ [REGEX_SYM]) by reflexivity.
    destruct (length (splitted_str body) =? 1).
    + exists false, st. cbn [app]. rewrite slice_1_1. reflexivity.
    + destruct (index_neg_last _ Hsegs) as (l' & x & Hl' & ->).
      assert (Hx : In x (splitted_str body))
        by (rewrite Hl'; apply in_or_app; right; left; reflexivity).
      apply splitted_str_segment in Hx. destruct Hx as [Hx1 Hx2].
      rewrite rchop_other by assumption. cbn [app]. rewrite slice_1_1.
      eexists _, _. reflexivity.
  - match goal with
    | |- context [length ?l =? 1] =>
        assert (Hlen : (length l =? 1) = false)
    end.
    { apply Nat.eqb_neq. rewrite length_app. cbn [length].
      destruct (splitted_str body); [congruence | simpl; lia]. }
    rewrite Hlen, index_neg_snoc1.
    replace (REGEX_SYM :: body ++ REGEX_SYM :: f1 :: flags)
      with ((REGEX_SYM :: body ++ [REGEX_SYM]) ++ f1 :: flags)
      by (cbn [app]; rewrite <- app_assoc; reflexivity).
    rewrite rchop_app, slice_1_1. eexists _, _. reflexivity.
Qed.

(** C7. A text is taken for a delimited regex exactly when it starts with the
    delimiter and ends with it or has it at offset -2 or -3: any other text
    gives [None]; a text of this shape never does, and unless no segment of it
    is non-empty (the [IndexError] of the delimiter-only texts) the pattern
    handed to [re.compile] is a body, the text or the text without its flags
    less the first and last character, in which every escaped delimiter has
    become a delimiter.  For [/body/flags] with a body that has a character
    other than the delimiter, that body is [body]. *)
Theorem get_name_as_regex_recognition (E : RegexEngine) (W : Type)
    (text : str) (st : state W) :
  (delimited_shape text = false ->
     get_name_as_regex E text st = (Ok None, st))
  /\ (delimited_shape text = true ->
        fst (get_name_as_regex E text st) <> Ok None
        /\ (splitted_str text = []
            /\ get_name_as_regex E text st = (Raise IndexError, st)
            \/ exists t ic st',
                 (t = text \/ exists flags, t = rchop text flags)
                 /\ get_name_as_regex E text st
                    = compile E (unescape_delimiters (slice 1 1 t)) ic st'))
  /\ (forall body flags : str,
        text = REGEX_SYM :: body ++ REGEX_SYM :: flags ->
        ~ In REGEX_SYM flags ->
        length flags <= 2 ->
        (exists c, In c body /\ c <> REGEX_SYM) ->
        delimited_shape text = true
        /\ exists ic st',
             get_name_as_regex E text st
             = compile E (unescape_delimiters body) ic st').
Proof.
  split; [| split].
  - intros H. rewrite get_name_as_regex_cases, H. reflexivity.
  - intros H. rewrite get_name_as_regex_cases, H.
    destruct (length (splitted_str text) =? 1) eqn:Hlen.
    + split; [apply compile_not_none |]. right.
      exists text, false, st.
      split; [left; reflexivity | reflexivity].
    + destruct (splitted_str text) as [|s0 l] eqn:Hs.
      * split; [discriminate |]. left. split; reflexivity.
      * destruct (index_neg_last (s0 :: l) ltac:(discriminate))
          as (l' & x & _ & ->).
        split; [apply compile_not_none |]. right.
        eexists (rchop text x), _, _.
        split; [right; exists x; reflexivity | reflexivity].
  - intros body flags -> Hf Hl Hb.
    split; [apply delimited_shape_flags; exact Hl |].
    apply get_name_as_regex_body; assumption.
Qed.

Lemma get_name_as_regex_recognition_witness :
  get_name_as_regex MiniRe.engine (quoted (L "my unit")) st0 = (Ok None, st0)
  /\ fst (get_name_as_regex MiniRe.engine (L "/a\/b/gi") st0) <> Ok None
  /\ exists ic st',
       get_name_as_regex MiniRe.engine (L "/a\/b/gi") st0
       = compile MiniRe.engine (unescape_delimiters (L "a\/b")) ic st'.
Proof.
  split; [| split].
  - apply (get_name_as_regex_recognition MiniRe.engine registry
             (quoted (L "my unit")) st0).
    reflexivity.
  - apply (get_name_as_regex_recognition MiniRe.engine registry
             (L "/a\/b/gi") st0).
    reflexivity.
  - apply (get_name_as_regex_recognition MiniRe.engine registry
             (L "/a\/b/gi") st0) with (flags := L "gi").
    + reflexivity.
    + intros H. repeat (destruct H as [H | H]; [discriminate |]). exact H.
    + simpl. lia.
    + exists "a"%char. split; [left; reflexivity | discriminate].
Defined.

(** C10. On the delimiter-only texts [/] and [//], which have the shape of a
    delimited regex, [get_name_as_regex] neither returns a compiled regex nor
    [None]: no segment is left after the empty ones are filtered out, and
    taking the last one as the flags raises [IndexError]. *)
Theorem get_name_as_regex_delimiter_only (E : RegexEngine) (W : Type)
    (st : state W) :
  delimited_shape (L "/") = true
  /\ delimited_shape (L "//") = true
  /\ splitted_str (L "/") = []
  /\ splitted_str (L "//") = []
  /\ get_name_as_regex E (L "/") st = (Raise IndexError, st)
  /\ get_name_as_regex E (L "//") st = (Raise IndexError, st).
Proof. repeat split. Qed.

(** ** [execute] *)

Section DispatcherFacts.

Variable E : RegexEngine.
Variables W D : Type.
Variable parser : W -> Parser D.
Variable V : Variant W.

(** Parsing the name only ever writes [self._is_regex_global]. *)
Lemma get_name_as_regex_frame (text : str) (st : state W) :
  let st1 := snd (get_name_as_regex E text st) in
  command_tokens st1 = command_tokens st
  /\ print_wrapper st1 = print_wrapper st
  /\ facade st1 = facade st
  /\ trace st1 = trace st.
Proof.
  rewrite get_name_as_regex_cases.
  destruct (delimited_shape text); [| simpl; auto].
  unfold compile, with_global.
  destruct (length (splitted_str text) =? 1).
  - destruct (re_compile E _ false); simpl; auto.
  - destruct (index_neg (splitted_str text) 1) as [flags|]; [| simpl; auto].
    destruct (re_compile E _ _); simpl; auto.
Qed.

Lemma execute_usage (st : state W) :
  length (command_tokens st) < 3 ->
  execute E parser V st
  = emit (Error_log (L "Missing some arguments" ++ [NEWLINE]
                       ++ L "Usage: " ++ usage_str V)) st.
Proof.
  intros H. unfold execute. apply Nat.ltb_lt in H. rewrite H. reflexivity.
Qed.

(** [execute] on at least three tokens, from the parsing of the name on. *)
Lemma execute_three (st : state W) (t0 t1 t2 : str) (rest : list str) :
  command_tokens st = t0 :: t1 :: t2 :: rest ->
  execute E parser V st
  = (unit_regex <- get_name_as_regex E t2 ;;
     match unit_regex with
     | None =>
         call_execute_on_unit V (get_unit_type_from_str t1) (remove_quotes t2)
     | Some rx =>
         count <- count_matching E parser V (get_unit_type_from_str t1) rx ;;
         if count =? 0 then
           match get_unit_type_from_str t1 with
           | Some t => emit (Write (L "No " ++ UnitType_name t
                                      ++ L " matched."))
           | None => raise AttributeError
           end
         else ret tt
     end ;;
     call_finish_execution V) st.
Proof. intros H. unfold execute. rewrite H. reflexivity. Qed.

(** The literal case. *)
Lemma execute_literal (st : state W) (t0 t1 t2 : str) (rest : list str) :
  command_tokens st = t0 :: t1 :: t2 :: rest ->
  delimited_shape t2 = false ->
  execute E parser V st
  = (call_execute_on_unit V (get_unit_type_from_str t1) (remove_quotes t2) ;;
     call_finish_execution V) st.
Proof.
  intros H Hs. rewrite (execute_three st t0 t1 t2 rest H).
  unfold bind at 1 2. rewrite get_name_as_regex_cases, Hs. reflexivity.
Qed.

(** The calls of the action in the literal case: one, whatever the hooks
    do. *)
Lemma literal_actions (unit_type : option UnitType) (unit_name : str)
    (st : state W) :
  actions (trace (snd ((call_execute_on_unit V unit_type unit_name ;;
                        call_finish_execution V) st)))
  = actions (trace st) ++ [Execute_on_unit unit_type unit_name].
Proof.
  unfold call_execute_on_unit, call_finish_execution, bind, emit, on_facade.
  cbn [fst snd trace facade].
  destruct (execute_on_unit V unit_type unit_name (facade st)) as [w|e];
    cbn [fst snd trace facade].
  - destruct (finish_execution V w); cbn [snd trace];
      unfold actions; rewrite !filter_app; cbn [filter is_action];
      rewrite ?app_nil_r; reflexivity.
  - unfold actions. rewrite filter_app. reflexivity.
Qed.

End DispatcherFacts.

(** A token surrounded by double quotes is never taken for a regex. *)
Lemma quoted_not_delimited (inner : str) : delimited_shape (quoted inner) = false.
Proof. reflexivity. Qed.

Lemma remove_quotes_quoted (inner : str) :
  remove_quotes (quoted inner) = unescape DQUOTE inner.
Proof.
  unfold remove_quotes, quoted. cbn [app]. rewrite slice_1_1.
  apply replace_unescape.
Qed.

Lemma strip_quoted (inner : str) : strip_surrounding_quotes (quoted inner) = inner.
Proof.
  unfold strip_surrounding_quotes, quoted.
  replace (2 <=? length ([DQUOTE] ++ inner ++ [DQUOTE])) with true
    by (symmetry; apply Nat.leb_le; rewrite !length_app; simpl; lia).
  replace ([DQUOTE] ++ inner ++ [DQUOTE]) with ((DQUOTE :: inner) ++ [DQUOTE])
    by reflexivity.
  rewrite endswith_snoc. cbn [app]. rewrite startswith_cons.
  rewrite Ascii.eqb_refl. cbn [andb]. apply slice_1_1.
Qed.

(** The literal case, as the code has it.  For a token that is not taken for
    a regex, the name is the token without its first and last character, with
    every escaped double quote unescaped; for a token surrounded by one pair of
    double quotes, which is never taken for a regex, that is the text between
    the quotes, unescaped.  [execute] calls the per-unit action once, with
    that name, before the finalize hook. *)
Theorem execute_literal_name (E : RegexEngine) (W D : Type)
    (parser : W -> Parser D) (V : Variant W) (st : state W)
    (t0 t1 t2 : str) (rest : list str) :
  command_tokens st = t0 :: t1 :: t2 :: rest ->
  delimited_shape t2 = false ->
  remove_quotes t2 = unescape DQUOTE (slice 1 1 t2)
  /\ (forall inner : str,
        t2 = quoted inner ->
        remove_quotes t2 = literal_name t2
        /\ literal_name t2 = unescape DQUOTE inner)
  /\ execute E parser V st
     = (call_execute_on_unit V (get_unit_type_from_str t1) (remove_quotes t2) ;;
        call_finish_execution V) st
  /\ actions (trace (snd (execute E parser V st)))
     = actions (trace st)
       ++ [Execute_on_unit (get_unit_type_from_str t1) (remove_quotes t2)].
Proof.
  intros H Hs.
  pose proof (execute_literal E W D parser V st t0 t1 t2 rest H Hs) as Hexec.
  split; [apply replace_unescape |].
  split.
  - intros inner ->. unfold literal_name. rewrite strip_quoted.
    split; [apply remove_quotes_quoted | reflexivity].
  - split; [exact Hexec |]. rewrite Hexec. apply literal_actions.
Qed.

Lemma execute_literal_name_witness :
  remove_quotes (quoted (L "my unit")) = L "my unit"
  /\ actions (trace (snd (run_line reading_variant
                            (L "show alias " ++ quoted (L "my unit"))
                            example_registry)))
     = [Execute_on_unit (Some alias) (L "my unit")].
Proof.
  destruct (execute_literal_name MiniRe.engine registry unit (fun w => w)
              reading_variant
              (init (L "show alias " ++ quoted (L "my unit")) false
                 example_registry)
              (L "show") (L "alias")
              (quoted (L "my unit")) [] eq_refl eq_refl)
    as (_ & Hq & _ & Ha).
  destruct (Hq (L "my unit") eq_refl) as [Hn1 Hn2].
  split; [rewrite Hn1; exact Hn2 | exact Ha].
Defined.

(** C1, on the code.  A token without quotes that is not taken for a regex
    is not kept as the name: [remove_quotes] removes its first and last
    characters although they are no double quotes, and the per-unit action
    is called with what is left. *)
Lemma bare_literal_loses_its_ends :
  delimited_shape (L "greet") = false
  /\ literal_name (L "greet") = L "greet"
  /\ remove_quotes (L "greet") = L "ree"
  /\ trace (snd (run_line reading_variant (L "show intent greet")
                   example_registry))
     = [Execute_on_unit (Some intent) (L "ree"); Finish_execution].
Proof. repeat split. Qed.

(** ** Flags of a pattern whose body has no delimiter *)

Lemma unescape_free (d : ascii) (body : str) :
  ~ In d body -> unescape d body = body.
Proof.
  induction body as [|c r IH]; intros Hd; [reflexivity |].
  destruct r as [|c' r']; [reflexivity |].
  change (unescape d (c :: c' :: r'))
    with (if Ascii.eqb c BACKSLASH && Ascii.eqb c' d
          then d :: unescape d r'
          else c :: unescape d (c' :: r')).
  replace (Ascii.eqb c' d) with false.
  - rewrite andb_false_r, IH; [reflexivity |].
    intros H. apply Hd. right. exact H.
  - symmetry. apply Ascii.eqb_neq. intros ->. apply Hd. right. left. reflexivity.
Qed.

Lemma splitted_str_free (body : str) :
  body <> [] -> ~ In REGEX_SYM body -> splitted_str body = [body].
Proof.
  intros Hne Hb. unfold splitted_str, split_on.
  rewrite split_on_from_free by exact Hb. cbn [app filter].
  destruct body; [congruence | reflexivity].
Qed.

(** X6. For a pattern [/body/flags] whose body is not empty and has no
    delimiter, escaped or not, the flags are read as written: without flags
    the body is compiled as it is and [self._is_regex_global] is left alone;
    with flags it is set when they contain [g], and [re.IGNORECASE] is passed
    when they contain [i]. *)
Lemma get_name_as_regex_flags (E : RegexEngine) (W : Type) (body flags : str)
    (st : state W) :
  body <> [] ->
  ~ In REGEX_SYM body ->
  ~ In REGEX_SYM flags ->
  length flags <= 2 ->
  get_name_as_regex E (REGEX_SYM :: body ++ REGEX_SYM :: flags) st
  = match flags with
    | [] => compile E body false st
    | _ => compile E body (contains "i"%char flags)
             (with_global (contains "g"%char flags) st)
    end.
Proof.
  intros Hne Hb Hf Hl.
  rewrite get_name_as_regex_cases, delimited_shape_flags by exact Hl.
  rewrite splitted_str_delimited, splitted_str_free by assumption.
  destruct flags as [|f1 flags].
  - cbn [app length Nat.eqb].
    rewrite slice_1_1. unfold unescape_delimiters.
    rewrite unescape_free by exact Hb. reflexivity.
  - cbn [app length Nat.eqb].
    change (index_neg [body; f1 :: flags] 1) with (Some (f1 :: flags)).
    replace (REGEX_SYM :: body ++ REGEX_SYM :: f1 :: flags)
      with ((REGEX_SYM :: body ++ [REGEX_SYM]) ++ f1 :: flags)
      by (cbn [app]; rewrite <- app_assoc; reflexivity).
    rewrite rchop_app, slice_1_1. unfold unescape_delimiters.
    rewrite unescape_free by exact Hb. reflexivity.
Qed.

(** The patterns of the specification's examples, on the aliases [foo],
    [xfoo], [Foobar] and [xa/g]. *)
Lemma flags_examples :
  actions (trace (snd (run_line reading_variant (L "show alias /^foo/")
                         example_registry)))
  = [Execute_on_unit (Some alias) (L "foo")]
  /\ actions (trace (snd (run_line reading_variant (L "show alias /foo/g")
                            example_registry)))
     = [Execute_on_unit (Some alias) (L "foo");
        Execute_on_unit (Some alias) (L "xfoo")]
  /\ actions (trace (snd (run_line reading_variant (L "show alias /FOO/gi")
                            example_registry)))
     = [Execute_on_unit (Some alias) (L "foo");
        Execute_on_unit (Some alias) (L "xfoo");
        Execute_on_unit (Some alias) (L "Foobar")].
Proof. split; [| split]; reflexivity. Qed.

(** C2, on the code.  With a second token that names no unit type,
    [get_unit_type_from_str] returns [None] and [execute] makes no test of
    it: on a literal name the per-unit action is called with the unit type
    [None], the finalize hook runs and [execute] returns; only on a regex does
    the generator raise [ValueError], before any call. *)
Theorem unknown_unit_type_literal_case (w : registry) :
  get_unit_type_from_str (L "foo") = None
  /\ fst (run_line reading_variant (L "show foo " ++ quoted (L "bar")) w)
     = Ok tt
  /\ trace (snd (run_line reading_variant
                   (L "show foo " ++ quoted (L "bar")) w))
     = [Execute_on_unit None (L "bar"); Finish_execution]
  /\ fst (run_line reading_variant (L "show foo /bar/") w)
     = Raise (ValueError (L "Unexpected unit type when matching regex: None"))
  /\ trace (snd (run_line reading_variant (L "show foo /bar/") w)) = [].
Proof. repeat split. Qed.

(** C4, on the code.  The flags are the last non-empty segment of the text
    between delimiters, also when the text ends with the delimiter and so has
    no flags: the pattern [/a\/g/] is compiled to [a/g] and
    [self._is_regex_global] is set, and [/a\/i/] is compiled with
    [re.IGNORECASE].  The alias [xa/g], which [a/g] does not match at index 0,
    is then selected by [/a\/g/]. *)
Theorem escaped_delimiter_taken_for_flags (E : RegexEngine) (W : Type)
    (st : state W) :
  get_name_as_regex E (L "/a\/g/") st
  = compile E (L "a/g") false (with_global true st)
  /\ get_name_as_regex E (L "/a\/i/") st
     = compile E (L "a/i") true (with_global false st)
  /\ option_map (fun rx => re_match MiniRe.engine rx (L "xa/g"))
       (re_compile MiniRe.engine (L "a/g") false)
     = Some false
  /\ trace (snd (run_line reading_variant (L "show alias /a\/g/")
                   example_registry))
     = [Execute_on_unit (Some alias) (L "xa/g"); Finish_execution].
Proof.
  split; [reflexivity | split; [reflexivity | split]]; reflexivity.
Qed.

(** ** The iteration over the matching names *)

Lemma skipn_nth_error {A} (l : list A) (pos : nat) (x : A) :
  nth_error l pos = Some x -> skipn pos l = x :: skipn (S pos) l.
Proof.
  revert pos; induction l as [|y l IH]; intros [|pos] H; simpl in H;
    try discriminate.
  - inversion H; reflexivity.
  - apply (IH pos H).
Qed.

Section Iteration.

Variable E : RegexEngine.
Variables W D : Type.
Variable parser : W -> Parser D.
Variable V : Variant W.

(** Whatever the action does, the loop only adds calls of the action to the
    trace. *)
Lemma for_matching_trace (remaining : nat) :
  forall (size pos : nat) (unit_type : option UnitType)
         (is_global : option bool) (rx : regex E) (count : nat)
         (st : state W),
  exists l,
    trace (snd (for_matching E parser V remaining size pos unit_type
                  is_global rx count st))
    = trace st ++ l
    /\ Forall (fun e => is_action e = true) l.
Proof.
  induction remaining as [|r IH]; intros size pos unit_type g rx count st.
  - exists []. rewrite app_nil_r. split; [| constructor].
    simpl. destruct (relevant_dict unit_type (parser (facade st)));
      [destruct (negb _) |]; reflexivity.
  - cbn [for_matching].
    destruct (relevant_dict unit_type (parser (facade st))) as [d|e];
      [| exists []; rewrite app_nil_r; split; [reflexivity | constructor]].
    destruct (negb (length d =? size));
      [exists []; rewrite app_nil_r; split; [reflexivity | constructor] |].
    destruct (nth_error d pos) as [[unit_name v]|];
      [| exists []; rewrite app_nil_r; split; [reflexivity | constructor]].
    destruct (regex_test E g rx unit_name); [| apply IH].
    unfold call_execute_on_unit, bind, emit, on_facade.
    cbn [fst snd facade trace].
    destruct (execute_on_unit V unit_type unit_name (facade st)) as [w|e].
    + match goal with
      | |- context [for_matching E parser V r size (S pos) unit_type g rx
                      (S count) ?s] =>
          destruct (IH size (S pos) unit_type g rx (S count) s) as (l & Hl & Hf)
      end.
      exists (Execute_on_unit unit_type unit_name :: l).
      split; [| constructor; [reflexivity | exact Hf]].
      rewrite Hl. cbn [trace]. rewrite <- app_assoc. reflexivity.
    + exists [Execute_on_unit unit_type unit_name].
      split; [reflexivity | constructor; [reflexivity | constructor]].
Qed.

Lemma count_matching_trace (unit_type : option UnitType) (rx : regex E)
    (st : state W) :
  exists l,
    trace (snd (count_matching E parser V unit_type rx st)) = trace st ++ l
    /\ Forall (fun e => is_action e = true) l.
Proof.
  unfold count_matching.
  destruct (relevant_dict unit_type (parser (facade st))) as [d|e].
  - apply for_matching_trace.
  - exists []. rewrite app_nil_r. split; [reflexivity | constructor].
Qed.

(** With an action that keeps the names the loop calls it on every matching name from [pos]
    on, in order. *)
Lemma for_matching_preserving (t : UnitType) (is_global : option bool)
    (rx : regex E) (all : list str) :
  preserving parser V t ->
  forall (remaining pos count : nat) (st : state W),
    keys (select t (parser (facade st))) = all ->
    remaining + pos = length all ->
    let matched := filter (regex_test E is_global rx) (skipn pos all) in
    exists st',
      for_matching E parser V remaining (length all) pos (Some t) is_global
        rx count st
      = (Ok (count + length matched), st')
      /\ trace st' = trace st ++ map (Execute_on_unit (Some t)) matched
      /\ keys (select t (parser (facade st'))) = all.
Proof.
  intros Hact. induction remaining as [|r IH]; intros pos count st Hk Hlen.
  - assert (Hs : skipn pos all = [])
      by (apply skipn_all2; simpl in Hlen; lia).
    rewrite Hs. cbn [filter map length]. exists st.
    cbn [for_matching relevant_dict].
    replace (length (select t (parser (facade st)))) with (length all)
      by (rewrite <- Hk; unfold keys; rewrite length_map; reflexivity).
    rewrite Nat.eqb_refl, Nat.add_0_r, app_nil_r. cbn [negb]. auto.
  - cbn [for_matching relevant_dict].
    replace (length (select t (parser (facade st)))) with (length all)
      by (rewrite <- Hk; unfold keys; rewrite length_map; reflexivity).
    rewrite Nat.eqb_refl. cbn [negb].
    destruct (nth_error (select t (parser (facade st))) pos)
      as [[unit_name v]|] eqn:Hn.
    + assert (Hn' : nth_error all pos = Some unit_name).
      { rewrite <- Hk. unfold keys. rewrite nth_error_map, Hn. reflexivity. }
      rewrite (skipn_nth_error _ _ _ Hn'). cbn [filter].
      destruct (regex_test E is_global rx unit_name).
      * unfold call_execute_on_unit, bind, emit, on_facade.
        cbn [fst snd facade trace].
        destruct (Hact unit_name (facade st)) as (w' & Hw & Hkeys).
        rewrite Hw.
        match goal with
        | |- context [for_matching E parser V r (length all) (S pos) (Some t)
                        is_global rx (S count) ?s] =>
            destruct (IH (S pos) (S count) s) as (st' & Hrun & Htr & Hk')
        end.
        { cbn [facade]. rewrite Hkeys. exact Hk. }
        { lia. }
        exists st'. rewrite Hrun. cbn [length map].
        split; [f_equal; f_equal; lia |].
        split; [| exact Hk'].
        rewrite Htr. cbn [trace]. rewrite <- app_assoc. reflexivity.
      * apply IH; [exact Hk | lia].
    + exfalso. apply nth_error_None in Hn.
      assert (length (select t (parser (facade st))) = length all)
        by (rewrite <- Hk; unfold keys; rewrite length_map; reflexivity).
      lia.
Qed.

End Iteration.

(** ** The calls of [execute] *)

Lemma finish_count_app (l l' : list event) :
  finish_count (l ++ l') = finish_count l + finish_count l'.
Proof. unfold finish_count. rewrite filter_app, length_app. reflexivity. Qed.

Lemma finish_count_actions (l : list event) :
  Forall (fun e => is_action e = true) l -> finish_count l = 0.
Proof.
  induction 1 as [|e l He _ IH]; [reflexivity |].
  unfold finish_count in *. cbn [filter].
  destruct e; try discriminate He. exact IH.
Qed.

Section Calls.

Variable E : RegexEngine.
Variables W D : Type.
Variable parser : W -> Parser D.
Variable V : Variant W.

(** The finalize hook after a computation that does not call it: if the
    whole returns, the hook was called once, last. *)
Lemma then_finish {A} (m : M W A) (st : state W) :
  (exists l, trace (snd (m st)) = trace st ++ l /\ finish_count l = 0) ->
  fst ((m ;; call_finish_execution V) st) = Ok tt ->
  exists l,
    trace (snd ((m ;; call_finish_execution V) st))
    = trace st ++ l ++ [Finish_execution]
    /\ finish_count l = 0.
Proof.
  intros (l & Hl & Hc) Hok. exists l. split; [| exact Hc].
  unfold bind in *. destruct (m st) as [[a|e] st1]; [| discriminate Hok].
  cbn [snd] in Hl. unfold call_finish_execution, bind, emit, on_facade in *.
  cbn [fst snd facade trace] in *.
  destruct (finish_execution V (facade st1)); [| discriminate Hok].
  cbn [snd trace]. rewrite Hl, <- app_assoc. reflexivity.
Qed.

Lemma literal_trace (unit_type : option UnitType) (unit_name : str)
    (st : state W) :
  exists l,
    trace (snd (call_execute_on_unit V unit_type unit_name st)) = trace st ++ l
    /\ finish_count l = 0.
Proof.
  exists [Execute_on_unit unit_type unit_name]. split; [| reflexivity].
  unfold call_execute_on_unit, bind, emit, on_facade.
  cbn [fst snd facade trace].
  destruct (execute_on_unit V unit_type unit_name (facade st)); reflexivity.
Qed.

Lemma regex_trace (unit_type : option UnitType) (rx : regex E)
    (st : state W) :
  exists l,
    trace (snd ((count <- count_matching E parser V unit_type rx ;;
                 if count =? 0 then
                   match unit_type with
                   | Some t => emit (Write (L "No " ++ UnitType_name t
                                              ++ L " matched."))
                   | None => raise AttributeError
                   end
                 else ret tt) st))
    = trace st ++ l
    /\ finish_count l = 0.
Proof.
  destruct (count_matching_trace E W D parser V unit_type rx st)
    as (l & Hl & Hf).
  apply finish_count_actions in Hf.
  unfold bind.
  destruct (count_matching E parser V unit_type rx st) as [[count|e] st1];
    cbn [snd] in Hl; [| exists l; split; assumption].
  destruct (count =? 0); [| exists l; split; assumption].
  destruct unit_type as [t|]; [| exists l; split; assumption].
  exists (l ++ [Write (L "No " ++ UnitType_name t ++ L " matched.")]).
  split.
  - unfold emit. cbn [snd trace]. rewrite Hl, <- app_assoc. reflexivity.
  - rewrite finish_count_app, Hf. reflexivity.
Qed.

(** [execute] on at least three tokens, after the parsing of the name. *)
Lemma execute_after_parse (st : state W) (t0 t1 t2 : str) (rest : list str) :
  command_tokens st = t0 :: t1 :: t2 :: rest ->
  execute E parser V st
  = match get_name_as_regex E t2 st with
    | (Ok (Some rx), st1) =>
        ((count <- count_matching E parser V (get_unit_type_from_str t1) rx ;;
          if count =? 0 then
            match get_unit_type_from_str t1 with
            | Some t => emit (Write (L "No " ++ UnitType_name t
                                       ++ L " matched."))
            | None => raise AttributeError
            end
          else ret tt) ;;
         call_finish_execution V) st1
    | (Ok None, st1) =>
        (call_execute_on_unit V (get_unit_type_from_str t1) (remove_quotes t2) ;;
         call_finish_execution V) st1
    | (Raise e, st1) => (Raise e, st1)
    end.
Proof.
  intros H. rewrite (execute_three E W D parser V st t0 t1 t2 rest H).
  unfold bind at 1.
  destruct (get_name_as_regex E t2 st) as [[[rx|]|e] st1]; reflexivity.
Qed.

(** On at least three tokens, an [execute] that returns has called the
    finalize hook once, last. *)
Lemma execute_returns_finish (st : state W) :
  3 <= length (command_tokens st) ->
  fst (execute E parser V st) = Ok tt ->
  exists l,
    trace (snd (execute E parser V st)) = trace st ++ l ++ [Finish_execution]
    /\ finish_count l = 0.
Proof.
  intros Hlen.
  destruct (command_tokens st) as [|t0 [|t1 [|t2 rest]]] eqn:Htok;
    try (simpl in Hlen; lia).
  rewrite (execute_after_parse st t0 t1 t2 rest Htok).
  destruct (get_name_as_regex_frame E W t2 st) as (_ & _ & _ & Htr).
  destruct (get_name_as_regex E t2 st) as [[[rx|]|e] st1];
    cbn [snd] in Htr; [| | discriminate]; rewrite <- Htr.
  - apply then_finish. apply regex_trace.
  - apply then_finish. apply literal_trace.
Qed.

(** C5. When the third token is a regex and the second a unit type, and the
    per-unit action returns and keeps the names of the mapping of that type
    (and the finalize hook returns), [execute] calls the action once for each
    name of the mapping that the regex matches, in the order of the mapping;
    when no name matches it calls it on none and writes the message that names
    the unit type; then it calls the finalize hook and returns. *)
Theorem execute_on_every_match (st st1 : state W) (t0 t1 t2 : str)
    (rest : list str) (t : UnitType) (rx : regex E) :
  command_tokens st = t0 :: t1 :: t2 :: rest ->
  get_unit_type_from_str t1 = Some t ->
  get_name_as_regex E t2 st = (Ok (Some rx), st1) ->
  preserving parser V t ->
  finalize_returns V ->
  let matched :=
    filter (regex_test E (is_regex_global st1) rx)
      (keys (select t (parser (facade st)))) in
  exists st',
    execute E parser V st = (Ok tt, st')
    /\ trace st'
       = trace st
         ++ map (Execute_on_unit (Some t)) matched
         ++ match matched with
            | [] => [Write (L "No " ++ UnitType_name t ++ L " matched.")]
            | _ => []
            end
         ++ [Finish_execution].
Proof.
  intros Htok Hut Hrx Hact Hfin matched.
  rewrite (execute_after_parse st t0 t1 t2 rest Htok).
  destruct (get_name_as_regex_frame E W t2 st) as (_ & _ & Hfac & Htr).
  rewrite Hrx in Hfac, Htr. cbn [snd] in Hfac, Htr.
  rewrite Hrx, Hut.
  unfold bind at 1 2. unfold count_matching. cbn [relevant_dict].
  destruct (for_matching_preserving E W D parser V t (is_regex_global st1) rx
              (keys (select t (parser (facade st)))) Hact
              (length (keys (select t (parser (facade st))))) 0 0 st1)
    as (st2 & Hrun & Htr2 & _).
  { rewrite Hfac. reflexivity. }
  { lia. }
  cbn [skipn] in Hrun, Htr2. fold matched in Hrun, Htr2.
  replace (length (select t (parser (facade st1))))
    with (length (keys (select t (parser (facade st)))))
    by (rewrite Hfac; unfold keys; apply length_map).
  rewrite Hrun. cbn [Nat.add].
  unfold call_finish_execution, bind, emit, on_facade.
  destruct matched as [|n ms] eqn:Hm.
  - cbn [length Nat.eqb fst snd facade trace map app].
    destruct (Hfin (facade st2)) as (w' & ->).
    eexists. split; [reflexivity |].
    cbn [trace]. rewrite Htr2, Htr. cbn [map].
    rewrite app_nil_r, <- app_assoc. reflexivity.
  - cbn [length Nat.eqb ret fst snd facade trace].
    destruct (Hfin (facade st2)) as (w' & ->).
    eexists. split; [reflexivity |].
    cbn [trace]. rewrite Htr2, Htr. cbn [app].
    rewrite <- app_assoc. reflexivity.
Qed.

(** The usage error, and the finalize hook on the paths that return.  With
    fewer than three tokens [execute] logs the
    usage error, which ends with the usage string of the variant, calls
    neither the per-unit action nor the finalize hook, and returns.  With at
    least three tokens, whenever [execute] returns it has called the finalize
    hook exactly once, as its last call. *)
Theorem execute_finalize (st : state W) :
  (length (command_tokens st) < 3 ->
     fst (execute E parser V st) = Ok tt
     /\ trace (snd (execute E parser V st))
        = trace st ++ [Error_log (L "Missing some arguments" ++ [NEWLINE]
                                    ++ L "Usage: " ++ usage_str V)]
     /\ facade (snd (execute E parser V st)) = facade st)
  /\ (3 <= length (command_tokens st) ->
      fst (execute E parser V st) = Ok tt ->
      exists l,
        trace (snd (execute E parser V st))
        = trace st ++ l ++ [Finish_execution]
        /\ finish_count l = 0).
Proof.
  split.
  - intros H. rewrite (execute_usage E W D parser V st H).
    repeat split.
  - apply execute_returns_finish.
Qed.

End Calls.

Lemma reading_variant_preserving (t : UnitType) :
  preserving (fun w : registry => w) reading_variant t.
Proof. intros unit_name w. exists w. split; reflexivity. Qed.

Lemma reading_variant_finalize : finalize_returns reading_variant.
Proof. intros w. exists w. reflexivity. Qed.

Lemma execute_on_every_match_witness :
  (exists st',
     run_line reading_variant (L "show intent /gre/g") example_registry
     = (Ok tt, st')
     /\ trace st'
        = [Execute_on_unit (Some intent) (L "greet");
           Execute_on_unit (Some intent) (L "great");
           Execute_on_unit (Some intent) (L "regret");
           Finish_execution])
  /\ (exists st',
        run_line reading_variant (L "show alias /zzz/") example_registry
        = (Ok tt, st')
        /\ trace st' = [Write (L "No alias matched."); Finish_execution]).
Proof.
  split.
  - pose (st := init (L "show intent /gre/g") false example_registry).
    destruct (execute_on_every_match MiniRe.engine registry unit
                (fun w => w) reading_variant st (with_global true st)
                (L "show") (L "intent") (L "/gre/g") [] intent
                (MiniRe.literal (L "gre") false)
                eq_refl eq_refl eq_refl
                (reading_variant_preserving intent)
                reading_variant_finalize)
      as (st' & Hrun & Htr).
    exists st'. split; [exact Hrun | exact Htr].
  - pose (st := init (L "show alias /zzz/") false example_registry).
    destruct (execute_on_every_match MiniRe.engine registry unit
                (fun w => w) reading_variant st st
                (L "show") (L "alias") (L "/zzz/") [] alias
                (MiniRe.literal (L "zzz") false)
                eq_refl eq_refl eq_refl
                (reading_variant_preserving alias)
                reading_variant_finalize)
      as (st' & Hrun & Htr).
    exists st'. split; [exact Hrun | exact Htr].
Defined.

Lemma execute_finalize_witness :
  trace (snd (run_line reading_variant (L "show alias") example_registry))
  = [Error_log (L "Missing some arguments" ++ [NEWLINE]
                  ++ L "Usage: show <unit-type> <unit-name>")]
  /\ exists l,
       trace (snd (run_line reading_variant (L "show alias /zzz/")
                     example_registry))
       = l ++ [Finish_execution]
       /\ finish_count l = 0.
Proof.
  split.
  - destruct (execute_finalize MiniRe.engine registry unit (fun w => w)
                reading_variant
                (init (L "show alias") false example_registry))
      as [H _].
    destruct H as (_ & H & _); [vm_compute; lia | exact H].
  - destruct (execute_finalize MiniRe.engine registry unit (fun w => w)
                reading_variant
                (init (L "show alias /zzz/") false example_registry))
      as [_ H].
    destruct H as (l & Hl & Hc); [vm_compute; lia | reflexivity |].
    exists l. split; [exact Hl | exact Hc].
Defined.

(** C6, on the code.  On the paths that raise the finalize hook is not
    called: with three tokens, an unknown unit type and a regex, or the
    delimiter-only pattern, [execute] raises and the trace holds no call of
    [finish_execution]. *)
Lemma finalize_skipped_when_raising :
  3 <= length (command_tokens (init (L "show foo /x/") false example_registry))
  /\ fst (run_line reading_variant (L "show foo /x/") example_registry)
     = Raise (ValueError (L "Unexpected unit type when matching regex: None"))
  /\ finish_count
       (trace (snd (run_line reading_variant (L "show foo /x/")
                      example_registry)))
     = 0
  /\ 3 <= length (command_tokens (init (L "show alias /") false
                                    example_registry))
  /\ fst (run_line reading_variant (L "show alias /") example_registry)
     = Raise IndexError
  /\ finish_count
       (trace (snd (run_line reading_variant (L "show alias /")
                      example_registry)))
     = 0.
Proof.
  split; [vm_compute; lia |].
  split; [reflexivity |]. split; [reflexivity |].
  split; [vm_compute; lia |].
  split; reflexivity.
Qed.

(** The live iteration is only sound for an action that keeps the names: the
    action of [deleting_variant] removes the first match, and the next step
    of the iteration raises [RuntimeError]. *)
Lemma live_iteration_needs_preserving :
  fst (run_line deleting_variant (L "delete alias /foo/g") example_registry)
  = Raise RuntimeError
  /\ trace (snd (run_line deleting_variant (L "delete alias /foo/g")
                   example_registry))
     = [Execute_on_unit (Some alias) (L "foo")].
Proof. split; reflexivity. Qed.

(** * Further properties *)

(** ** The tokens as groups of words *)

Lemma spaced_snoc (g : list str) (w : str) :
  spaced (g ++ [w]) = spaced g ++ w ++ [SPACE].
Proof.
  unfold spaced. rewrite map_app, concat_app. simpl. rewrite app_nil_r.
  reflexivity.
Qed.

Lemma spaced_nonempty (g : list str) : g <> [] -> spaced g <> [].
Proof.
  intros Hg. rewrite spaced_join by exact Hg.
  destruct (join [SPACE] g); discriminate.
Qed.

Lemma group_ok_single (w : str) : word_ok w -> group_ok [w].
Proof.
  intros Hw. split; [discriminate | split].
  - constructor; [exact Hw | constructor].
  - simpl. lia.
Qed.

(** One step of the loop keeps the reading of the state. *)
Lemma loop_inv_step (st : tok_state) (groups : list (list str))
    (g : list str) (w : str) :
  word_ok w ->
  loop_inv st groups g ->
  exists groups' g',
    loop_inv (tokenize_step st w) groups' g'
    /\ concat groups' ++ g' = (concat groups ++ g) ++ [w].
Proof.
  intros Hw (Ht & Hc & Hi & Hgs & Hg & Hq).
  unfold tokenize_step. rewrite Hi.
  destruct g as [|w0 g0]; cbn [negb].
  - unfold spaced in Hc. simpl in Hc.
    destruct (startswith w [DQUOTE]) eqn:Hs; cbn [andb].
    + destruct (ends_literal w) eqn:He.
      * exists (groups ++ [[w]]), [].
        split.
        -- repeat split; cbn [tokens current_token inside_token].
           ++ rewrite Ht, map_app. reflexivity.
           ++ exact Hc.
           ++ apply Forall_app. split; [exact Hgs |].
              constructor; [apply group_ok_single; exact Hw | constructor].
           ++ constructor.
           ++ congruence.
        -- rewrite concat_app. simpl. rewrite !app_nil_r. reflexivity.
      * exists groups, [w].
        split.
        -- repeat split; cbn [tokens current_token inside_token].
           ++ exact Ht.
           ++ rewrite Hc. unfold spaced. simpl. rewrite app_nil_r. reflexivity.
           ++ exact Hgs.
           ++ constructor; [exact Hw | constructor].
           ++ intros _. exists w, []. split; [reflexivity | exact Hs].
        -- rewrite app_nil_r. reflexivity.
    + exists (groups ++ [[w]]), [].
      split.
      * repeat split; cbn [tokens current_token inside_token].
        -- rewrite Ht, map_app. reflexivity.
        -- exact Hc.
        -- apply Forall_app. split; [exact Hgs |].
           constructor; [apply group_ok_single; exact Hw | constructor].
        -- constructor.
        -- congruence.
      * rewrite concat_app. simpl. rewrite !app_nil_r. reflexivity.
  - assert (Hok : Forall word_ok ((w0 :: g0) ++ [w])).
    { apply Forall_app. split; [exact Hg | constructor; [exact Hw | constructor]]. }
    assert (Hcur : current_token st ++ w ++ [SPACE] = spaced ((w0 :: g0) ++ [w]))
      by (rewrite Hc, spaced_snoc; reflexivity).
    destruct (ends_literal w) eqn:He.
    + exists (groups ++ [(w0 :: g0) ++ [w]]), [].
      split.
      * repeat split; cbn [tokens current_token inside_token].
        -- rewrite Ht, map_app, Hcur. cbn [map].
           rewrite rstrip_spaced; [reflexivity | discriminate | exact Hok].
        -- apply Forall_app. split; [exact Hgs |].
           constructor; [| constructor].
           split; [discriminate | split; [exact Hok |]].
           intros _. destruct (Hq ltac:(discriminate)) as (x & r & Hx & Hs).
           inversion Hx; subst. exists x, (r ++ [w]). split; [reflexivity | exact Hs].
        -- constructor.
        -- congruence.
      * rewrite concat_app. simpl. rewrite !app_nil_r, <- !app_assoc. reflexivity.
    + exists groups, ((w0 :: g0) ++ [w]).
      split.
      * repeat split; cbn [tokens current_token inside_token].
        -- exact Ht.
        -- exact Hcur.
        -- exact Hgs.
        -- exact Hok.
        -- intros _. destruct (Hq ltac:(discriminate)) as (x & r & Hx & Hs).
           inversion Hx; subst. exists x, (r ++ [w]). split; [reflexivity | exact Hs].
      * rewrite <- !app_assoc. reflexivity.
Qed.

Lemma loop_inv_fold (ws : list str) :
  Forall word_ok ws ->
  forall (st : tok_state) (groups : list (list str)) (g : list str),
    loop_inv st groups g ->
    exists groups' g',
      loop_inv (fold_left tokenize_step ws st) groups' g'
      /\ concat groups' ++ g' = (concat groups ++ g) ++ ws.
Proof.
  induction 1 as [|w ws Hw _ IH]; intros st groups g Hinv.
  - exists groups, g. split; [exact Hinv | rewrite app_nil_r; reflexivity].
  - destruct (loop_inv_step st groups g w Hw Hinv) as (gs1 & g1 & Hinv1 & Hc1).
    destruct (IH _ _ _ Hinv1) as (gs2 & g2 & Hinv2 & Hc2).
    exists gs2, g2. split; [exact Hinv2 |].
    rewrite Hc2, Hc1, <- app_assoc. reflexivity.
Qed.

(** The tokens of a line are the single-space joins of consecutive groups of
    its words. *)
Lemma tokenize_groups (command_str : str) :
  exists groups : list (list str),
    tokenize command_str = map (join [SPACE]) groups
    /\ concat groups = split command_str
    /\ Forall group_ok groups.
Proof.
  rewrite tokenize_eq_loop.
  destruct (loop_inv_fold (split command_str) (split_words command_str)
              tok_init [] [])
    as (groups & g & (Ht & Hc & Hi & Hgs & Hg & Hq) & Hcat).
  { repeat split; try constructor. congruence. }
  simpl in Hcat. unfold tokenize_loop.
  destruct g as [|w0 g0].
  - rewrite Hc. unfold spaced. simpl. exists groups.
    rewrite app_nil_r in Hcat. auto.
  - pose proof (spaced_nonempty (w0 :: g0) ltac:(discriminate)) as Hne.
    rewrite Hc. destruct (spaced (w0 :: g0)) eqn:Hs; [congruence |].
    rewrite <- Hs. exists (groups ++ [w0 :: g0]).
    split; [| split].
    + rewrite Ht, map_app, rstrip_spaced;
        [reflexivity | discriminate | exact Hg].
    + rewrite concat_app. simpl. rewrite app_nil_r. exact Hcat.
    + apply Forall_app. split; [exact Hgs |].
      constructor; [| constructor].
      split; [discriminate | split; [exact Hg |]].
      intros _. apply Hq. discriminate.
Qed.

Lemma join_app (a b : list str) :
  a <> [] -> join [SPACE] (a ++ b) = join [SPACE] a ++ prefix_space b.
Proof.
  induction a as [|w a IH]; intros Ha; [congruence |].
  destruct a as [|w' a].
  - cbn [app]. rewrite join_cons. reflexivity.
  - change ((w :: w' :: a) ++ b) with (w :: ((w' :: a) ++ b)).
    rewrite (join_cons w ((w' :: a) ++ b)), (join_cons w (w' :: a)).
    change (prefix_space ((w' :: a) ++ b))
      with (SPACE :: join [SPACE] ((w' :: a) ++ b)).
    rewrite IH by discriminate. cbn [prefix_space].
    rewrite <- app_assoc. reflexivity.
Qed.

Lemma join_concat (groups : list (list str)) :
  Forall (fun g => g <> []) groups ->
  join [SPACE] (map (join [SPACE]) groups) = join [SPACE] (concat groups).
Proof.
  induction 1 as [|g gs Hg Hgs IH]; [reflexivity |].
  cbn [map concat]. rewrite join_cons, join_app by exact Hg. f_equal.
  destruct gs as [|g' gs']; [reflexivity |].
  cbn [map prefix_space]. cbn [map] in IH. rewrite IH.
  inversion Hgs as [|? ? Hg' _]; subst. cbn [concat].
  destruct g' as [|w' r']; [congruence | reflexivity].
Qed.

Lemma group_ok_nonempty (groups : list (list str)) :
  Forall group_ok groups -> Forall (fun g => g <> []) groups.
Proof. apply Forall_impl. intros g (H & _). exact H. Qed.

(** X1. For every line, with or without quoted literals, the tokens joined
    by single spaces are the line with its whitespace collapsed, and
    tokenizing that join gives the same tokens: [tokenize] keeps every word,
    in order. *)
Theorem tokenize_rejoin_every_line (command_str : str) :
  join [SPACE] (tokenize command_str) = collapse_whitespace command_str
  /\ tokenize (join [SPACE] (tokenize command_str)) = tokenize command_str.
Proof.
  destruct (tokenize_groups command_str) as (groups & Ht & Hc & Hok).
  assert (Hj : join [SPACE] (tokenize command_str)
               = join [SPACE] (split command_str)).
  { rewrite Ht, join_concat, Hc; [reflexivity |].
    apply group_ok_nonempty; exact Hok. }
  split.
  - rewrite Hj. apply join_split_collapse.
  - rewrite Hj, tokenize_join by apply split_words.
    symmetry. apply tokenize_eq_loop.
Qed.

Lemma rstrip_join (g : list str) :
  g <> [] -> Forall word_ok g -> rstrip (join [SPACE] g) = join [SPACE] g.
Proof.
  intros Hne Hg. rewrite <- (rstrip_spaced g Hne Hg) at 2.
  rewrite spaced_join by exact Hne. symmetry. apply rstrip_app_space.
Qed.

Lemma split_empty (s : str) :
  split s = [] <-> Forall (fun c => isspace c = true) s.
Proof.
  unfold split. induction s as [|c r IH]; simpl.
  - split; [constructor | reflexivity].
  - destruct (isspace c) eqn:Hc; simpl.
    + rewrite IH. split; [intros H; constructor; assumption |].
      intros H. inversion H; assumption.
    + split.
      * intros H. exfalso. apply (split_from_nonempty r [c]); [discriminate | exact H].
      * intros H. inversion H; congruence.
Qed.

(** X2. A token is never empty, begins with a character that is not
    whitespace and has no whitespace at its end; whitespace occurs inside a
    token only when the token begins with a double quote.  There is no token
    exactly when the line is empty or all whitespace. *)
Theorem tokenize_tokens_well_formed (command_str : str) :
  (forall t : str,
     In t (tokenize command_str) ->
     (exists c r, t = c :: r /\ isspace c = false)
     /\ rstrip t = t
     /\ ((exists c, In c t /\ isspace c = true) ->
         startswith t [DQUOTE] = true))
  /\ (tokenize command_str = []
      <-> Forall (fun c => isspace c = true) command_str).
Proof.
  destruct (tokenize_groups command_str) as (groups & Ht & Hc & Hok).
  split.
  - intros t Hin. rewrite Ht in Hin. apply in_map_iff in Hin.
    destruct Hin as (g & <- & Hg).
    rewrite Forall_forall in Hok. destruct (Hok g Hg) as (Hne & Hw & Hq).
    destruct g as [|w rest]; [congruence |].
    inversion Hw as [|? ? [Hwne Hwc] Hrest]; subst.
    destruct w as [|c w']; [congruence |].
    inversion Hwc as [|? ? Hcs _]; subst.
    split; [| split].
    + rewrite join_cons. exists c, (w' ++ prefix_space rest).
      split; [reflexivity | exact Hcs].
    + apply rstrip_join; [discriminate | exact Hw].
    + intros (x & Hx & Hxs).
      destruct rest as [|w2 rest'].
      * exfalso. simpl in Hx. rewrite Forall_forall in Hwc.
        rewrite (Hwc x Hx) in Hxs. discriminate.
      * destruct (Hq ltac:(simpl; lia)) as (w0 & r0 & Heq & Hs).
        inversion Heq; subst. rewrite join_cons. cbn [app].
        rewrite startswith_cons in *. exact Hs.
  - rewrite <- split_empty, <- Hc, Ht.
    apply group_ok_nonempty in Hok.
    destruct groups as [|g gs]; [split; reflexivity |].
    inversion Hok as [|? ? Hg _]; subst.
    split; [discriminate |]. cbn [concat].
    destruct g; [congruence | discriminate].
Qed.

(** ** The instance after [__init__] *)

Lemma last_two {A} (l : list A) :
  2 <= length l -> exists pre x y, l = pre ++ [x; y].
Proof.
  intros Hl.
  destruct l as [|a l] using rev_ind; [simpl in Hl; lia |].
  destruct l as [|b l _] using rev_ind.
  - simpl in Hl. lia.
  - exists l, b, a. rewrite <- app_assoc. reflexivity.
Qed.

(** X3. The sink that [__init__] builds always matches the tokens it
    removed.  A sink of type append or truncate has a path, and the tokens
    ended with [>>] or [>] and that path, both removed.  A sink of type quiet
    has no path, was asked for, and no token was removed.  A sink without a
    type has no path, and either no token was removed and quiet was not asked
    for, or the tokens ended with a lone operator, which was removed.  At
    least one token is left after a removal. *)
Theorem init_sink_matches_tokens (W : Type) (toks : list str) (q : bool)
    (w : W) :
  let st := init_tokens toks q w in
  match redirection_type (print_wrapper st),
        redirection_file_path (print_wrapper st) with
  | Some append, Some path =>
      toks = command_tokens st ++ [REDIRECTION_APPEND_SYM; path]
      /\ 1 <= length (command_tokens st)
  | Some truncate, Some path =>
      toks = command_tokens st ++ [REDIRECTION_SYM; path]
      /\ 1 <= length (command_tokens st)
  | Some quiet, None => q = true /\ command_tokens st = toks
  | None, None =>
      (q = false /\ command_tokens st = toks)
      \/ ((toks = command_tokens st ++ [REDIRECTION_APPEND_SYM]
           \/ toks = command_tokens st ++ [REDIRECTION_SYM])
          /\ 2 <= length (command_tokens st))
  | _, _ => False
  end.
Proof.
  cbv zeta. unfold init_tokens, find_redirection_file_path.
  destruct (Nat.ltb_spec (length toks) 3) as [Hlt | Hge].
  - destruct q; simpl; auto.
  - destruct (last_two toks ltac:(lia)) as (pre & t2 & t1 & ->).
    assert (Hpre : 1 <= length pre)
      by (rewrite length_app in Hge; simpl in Hge; lia).
    rewrite index_neg_snoc2, index_neg_snoc2'.
    unfold remove_redirection_tokens.
    destruct (str_eqb t2 REDIRECTION_APPEND_SYM) eqn:H1.
    + apply str_eqb_eq in H1. subst t2.
      cbn [print_wrapper command_tokens Writer_redirected redirection_type
           redirection_file_path].
      rewrite index_neg_snoc2.
      cbn [str_eqb orb]. rewrite slice_0_2. split; [reflexivity | exact Hpre].
    + destruct (str_eqb t2 REDIRECTION_SYM) eqn:H2.
      * apply str_eqb_eq in H2. subst t2.
        cbn [print_wrapper command_tokens Writer_redirected redirection_type
             redirection_file_path].
        rewrite index_neg_snoc2.
        rewrite slice_0_2. split; [reflexivity | exact Hpre].
      * destruct (str_eqb t1 REDIRECTION_APPEND_SYM) eqn:H3;
          [| destruct (str_eqb t1 REDIRECTION_SYM) eqn:H4].
        -- apply str_eqb_eq in H3. subst t1.
           cbn [orb print_wrapper command_tokens Writer_redirected
                redirection_type redirection_file_path].
           rewrite index_neg_snoc2.
           rewrite H1, H2. cbn [orb].
           replace (pre ++ [t2; REDIRECTION_APPEND_SYM])
             with ((pre ++ [t2]) ++ [REDIRECTION_APPEND_SYM])
             by (rewrite <- app_assoc; reflexivity).
           rewrite slice_0_1. right. split; [left; reflexivity |].
           rewrite length_app. simpl. lia.
        -- apply str_eqb_eq in H4. subst t1.
           cbn [orb print_wrapper command_tokens Writer_redirected
                redirection_type redirection_file_path].
           rewrite index_neg_snoc2.
           rewrite H1, H2. cbn [orb].
           replace (pre ++ [t2; REDIRECTION_SYM])
             with ((pre ++ [t2]) ++ [REDIRECTION_SYM])
             by (rewrite <- app_assoc; reflexivity).
           rewrite slice_0_1. right. split; [right; reflexivity |].
           rewrite length_app. simpl. lia.
        -- cbn [orb]. destruct q; simpl; auto.
Qed.

(** ** Unit types *)

Lemma lower_char_idempotent (c : ascii) : lower_char (lower_char c) = lower_char c.
Proof.
  destruct c as [[] [] [] [] [] [] [] []]; vm_compute; reflexivity.
Qed.

Lemma lower_idempotent (s : str) : lower (lower s) = lower s.
Proof.
  unfold lower. rewrite map_map. apply map_ext. apply lower_char_idempotent.
Qed.

(** X4. The unit type of a token depends only on the token in lower case: a
    token gives a unit type exactly when its lower case is the name of that
    type, so the names themselves are parsed back to their types, in any
    case of letters. *)
Theorem get_unit_type_from_str_lower :
  (forall t : UnitType, get_unit_type_from_str (UnitType_name t) = Some t)
  /\ (forall (s : str) (t : UnitType),
        get_unit_type_from_str s = Some t <-> lower s = UnitType_name t)
  /\ (forall s : str,
        get_unit_type_from_str (lower s) = get_unit_type_from_str s).
Proof.
  split; [intros []; reflexivity | split].
  - intros s t. unfold get_unit_type_from_str.
    destruct (str_eqb (lower s) (L "alias")) eqn:H1;
      [apply str_eqb_eq in H1; rewrite H1;
       destruct t; split; (reflexivity || discriminate) |].
    destruct (str_eqb (lower s) (L "slot")) eqn:H2;
      [apply str_eqb_eq in H2; rewrite H2;
       destruct t; split; (reflexivity || discriminate) |].
    destruct (str_eqb (lower s) (L "intent")) eqn:H3;
      [apply str_eqb_eq in H3; rewrite H3;
       destruct t; split; (reflexivity || discriminate) |].
    apply str_eqb_neq in H1, H2, H3.
    split; [discriminate |]. intros H. exfalso.
    destruct t; [apply H1 | apply H2 | apply H3]; exact H.
  - intros s. unfold get_unit_type_from_str. rewrite lower_idempotent.
    reflexivity.
Qed.

(** ** A quoted name, from the line to the action *)

Lemma ends_literal_closing (x : str) (c : ascii) :
  c <> BACKSLASH -> ends_literal ((x ++ [c]) ++ [DQUOTE]) = true.
Proof.
  intros Hc. unfold ends_literal. rewrite endswith_snoc, Ascii.eqb_refl.
  cbn [andb]. rewrite <- app_assoc. cbn [app]. rewrite index_neg_snoc2.
  replace (Ascii.eqb c BACKSLASH) with false
    by (symmetry; apply Ascii.eqb_neq; exact Hc).
  apply orb_true_r.
Qed.

Lemma ends_literal_no_quote (x : str) (c : ascii) :
  c <> DQUOTE -> ends_literal (x ++ [c]) = false.
Proof.
  intros Hc. unfold ends_literal. rewrite endswith_snoc.
  replace (Ascii.eqb c DQUOTE) with false
    by (symmetry; apply Ascii.eqb_neq; exact Hc).
  reflexivity.
Qed.

Lemma ends_literal_free (w : str) :
  w <> [] -> ~ In DQUOTE w ->
  ends_literal w = false /\ ends_literal (DQUOTE :: w) = false.
Proof.
  intros Hne Hq. destruct (exists_last Hne) as (x & c & ->).
  assert (Hc : c <> DQUOTE).
  { intros ->. apply Hq. apply in_or_app. right. left. reflexivity. }
  split; [apply ends_literal_no_quote; exact Hc |].
  change (DQUOTE :: x ++ [c]) with ((DQUOTE :: x) ++ [c]).
  apply ends_literal_no_quote; exact Hc.
Qed.

Lemma word_ok_quote_left (w : str) : word_ok w -> word_ok (DQUOTE :: w).
Proof.
  intros [_ Hw]. split; [discriminate | constructor; [reflexivity | exact Hw]].
Qed.

Lemma word_ok_quote_right (w : str) : word_ok w -> word_ok (w ++ [DQUOTE]).
Proof.
  intros [_ Hw]. split; [destruct w; discriminate |].
  apply Forall_app. split; [exact Hw | constructor; [reflexivity | constructor]].
Qed.

Lemma join_last_app (mid : list str) (wl x : str) :
  join [SPACE] (mid ++ [wl ++ x]) = join [SPACE] (mid ++ [wl]) ++ x.
Proof.
  destruct mid as [|m mid]; [reflexivity |].
  rewrite !join_snoc by discriminate. rewrite <- app_assoc. reflexivity.
Qed.

Lemma join_app_token (pre g : list str) :
  g <> [] ->
  join [SPACE] (pre ++ [join [SPACE] g]) = join [SPACE] (pre ++ g).
Proof.
  intros Hg. destruct pre as [|p pre].
  - reflexivity.
  - rewrite !join_app by discriminate. f_equal.
    destruct g; [congruence | reflexivity].
Qed.

(** The tokens of plain words followed by one quoted name. *)
Lemma tokenize_quoted_name (pre ws : list str) :
  Forall word_ok pre ->
  Forall (fun w => startswith w [DQUOTE] = false) pre ->
  ws <> [] ->
  Forall word_ok ws ->
  Forall (fun w => ~ In DQUOTE w) ws ->
  endswith (join [SPACE] ws) [BACKSLASH] = false ->
  tokenize (join [SPACE] (pre ++ [quoted (join [SPACE] ws)]))
  = pre ++ [quoted (join [SPACE] ws)].
Proof.
  intros Hpre Hplain Hne Hws Hq Hend.
  destruct (exists_last Hne) as (front & wl & ->).
  apply Forall_app in Hws. destruct Hws as [Hfront Hwl].
  inversion Hwl as [|? ? Hwl' _]; subst.
  apply Forall_app in Hq. destruct Hq as [Hqfront Hqwl].
  inversion Hqwl as [|? ? Hqwl' _]; subst.
  destruct Hwl' as [Hwlne Hwlc].
  destruct (exists_last Hwlne) as (x & c & ->).
  assert (Hc : c <> BACKSLASH).
  { rewrite join_last_app, endswith_snoc in Hend.
    apply Ascii.eqb_neq. exact Hend. }
  assert (Hwl_ok : word_ok (x ++ [c])) by (split; assumption).
  destruct front as [|w1 mid].
  - (* one word *)
    cbn [app join]. unfold quoted.
    change ([DQUOTE] ++ (x ++ [c]) ++ [DQUOTE])
      with (DQUOTE :: (x ++ [c]) ++ [DQUOTE]).
    assert (Hw : word_ok (DQUOTE :: (x ++ [c]) ++ [DQUOTE])).
    { apply word_ok_quote_left, word_ok_quote_right. exact Hwl_ok. }
    rewrite tokenize_join
      by (apply Forall_app; split;
          [exact Hpre | constructor; [exact Hw | constructor]]).
    rewrite tokenize_loop_app. unfold tok_init.
    rewrite loop_plain by exact Hplain. cbn [app].
    rewrite tokenize_loop_cons. unfold tokenize_step.
    cbn [inside_token tokens current_token].
    rewrite startswith_cons, Ascii.eqb_refl. cbn [andb].
    replace (ends_literal (DQUOTE :: (x ++ [c]) ++ [DQUOTE])) with true.
    + reflexivity.
    + symmetry.
      change (DQUOTE :: (x ++ [c]) ++ [DQUOTE])
        with (((DQUOTE :: x) ++ [c]) ++ [DQUOTE]).
      apply ends_literal_closing. exact Hc.
  - (* several words *)
    inversion Hfront as [|? ? Hw1 Hmid]; subst.
    inversion Hqfront as [|? ? Hq1 Hqmid]; subst.
    match goal with
    | |- context [quoted (join [SPACE] ?l)] =>
        assert (Hname : quoted (join [SPACE] l)
                        = join [SPACE]
                            ((DQUOTE :: w1) :: mid ++ [(x ++ [c]) ++ [DQUOTE]]))
    end.
    { unfold quoted. cbn [app].
      rewrite (join_cons w1), (join_cons (DQUOTE :: w1)).
      cbn [app]. f_equal. rewrite <- app_assoc. f_equal.
      destruct mid as [|m mid'].
      - reflexivity.
      - cbn [app prefix_space]. cbn [app]. f_equal.
        symmetry. apply (join_last_app (m :: mid') (x ++ [c]) [DQUOTE]). }
    rewrite Hname, join_app_token by discriminate.
    rewrite tokenize_join.
    + etransitivity;
        [apply (tokenize_loop_merge pre mid [] (DQUOTE :: w1)
                  ((x ++ [c]) ++ [DQUOTE])) | reflexivity].
      * constructor; [apply word_ok_quote_left; exact Hw1 |].
        apply Forall_app. split; [exact Hmid |].
        constructor; [apply word_ok_quote_right; exact Hwl_ok | constructor].
      * exact Hplain.
      * apply startswith_cons.
      * apply (ends_literal_free w1); [apply Hw1 | exact Hq1].
      * rewrite Forall_forall in *. intros m Hm.
        apply (ends_literal_free m); [apply (Hmid m Hm) | apply (Hqmid m Hm)].
      * apply ends_literal_closing. exact Hc.
    + apply Forall_app. split; [exact Hpre |].
      constructor; [apply word_ok_quote_left; exact Hw1 |].
      apply Forall_app. split; [exact Hmid |].
      constructor; [apply word_ok_quote_right; exact Hwl_ok | constructor].
Qed.

Lemma join_no_quote (ws : list str) :
  Forall (fun w => ~ In DQUOTE w) ws -> ~ In DQUOTE (join [SPACE] ws).
Proof.
  intros Hq Hin. apply join_chars in Hin.
  destruct Hin as [H | (w & Hw & Hc)]; [discriminate |].
  rewrite Forall_forall in Hq. exact (Hq w Hw Hc).
Qed.

Lemma UnitType_name_word (t : UnitType) :
  word_ok (UnitType_name t)
  /\ startswith (UnitType_name t) [DQUOTE] = false
  /\ get_unit_type_from_str (UnitType_name t) = Some t.
Proof.
  destruct t; (split; [split; [discriminate | repeat constructor] |]);
    repeat split.
Qed.

(** X5. A unit name of one or more words without double quotes, written
    between double quotes after a command word and a unit type, comes through
    unchanged when it does not end with a backslash: the line is tokenized
    into the command word, the unit type and the quoted name as one token,
    [remove_quotes] gives the name back, and [execute] calls the per-unit
    action once, with that unit type and that name. *)
Theorem quoted_name_reaches_action (E : RegexEngine) (W D : Type)
    (parser : W -> Parser D) (V : Variant W) (w : W)
    (cmd : str) (t : UnitType) (ws : list str) :
  word_ok cmd ->
  startswith cmd [DQUOTE] = false ->
  ws <> [] ->
  Forall word_ok ws ->
  Forall (fun x => ~ In DQUOTE x) ws ->
  endswith (join [SPACE] ws) [BACKSLASH] = false ->
  tokenize (join [SPACE] [cmd; UnitType_name t; quoted (join [SPACE] ws)])
  = [cmd; UnitType_name t; quoted (join [SPACE] ws)]
  /\ remove_quotes (quoted (join [SPACE] ws)) = join [SPACE] ws
  /\ actions
       (trace
          (snd (execute E parser V
                  (init (join [SPACE] [cmd; UnitType_name t;
                                       quoted (join [SPACE] ws)])
                     false w))))
     = [Execute_on_unit (Some t) (join [SPACE] ws)].
Proof.
  intros Hcmd Hplain Hne Hws Hq Hend.
  destruct (UnitType_name_word t) as (Hut & Hutq & Hget).
  assert (Htok : tokenize (join [SPACE] [cmd; UnitType_name t;
                                         quoted (join [SPACE] ws)])
                 = [cmd; UnitType_name t; quoted (join [SPACE] ws)]).
  { apply (tokenize_quoted_name [cmd; UnitType_name t] ws); try assumption.
    - constructor; [exact Hcmd | constructor; [exact Hut | constructor]].
    - constructor; [exact Hplain | constructor; [exact Hutq | constructor]]. }
  assert (Hname : remove_quotes (quoted (join [SPACE] ws)) = join [SPACE] ws).
  { rewrite remove_quotes_quoted. apply unescape_free.
    apply join_no_quote. exact Hq. }
  split; [exact Htok | split; [exact Hname |]].
  assert (Hinit : command_tokens
                    (init (join [SPACE] [cmd; UnitType_name t;
                                         quoted (join [SPACE] ws)]) false w)
                  = [cmd; UnitType_name t; quoted (join [SPACE] ws)]
                  /\ trace
                       (init (join [SPACE] [cmd; UnitType_name t;
                                            quoted (join [SPACE] ws)]) false w)
                     = []).
  { unfold init. rewrite Htok. clear. destruct t; split; reflexivity. }
  destruct Hinit as [Hct Htr].
  rewrite (execute_literal E W D parser V _ cmd (UnitType_name t)
             (quoted (join [SPACE] ws)) [] Hct (quoted_not_delimited _)).
  rewrite literal_actions, Htr, Hget, Hname. reflexivity.
Qed.

Lemma quoted_name_reaches_action_witness :
  tokenize (L "show alias " ++ quoted (L "my own unit"))
  = [L "show"; L "alias"; quoted (L "my own unit")]
  /\ actions (trace (snd (run_line reading_variant
                            (L "show alias " ++ quoted (L "my own unit"))
                            example_registry)))
     = [Execute_on_unit (Some alias) (L "my own unit")].
Proof.
  destruct (quoted_name_reaches_action MiniRe.engine registry unit
              (fun w => w) reading_variant example_registry
              (L "show") alias [L "my"; L "own"; L "unit"])
    as (Ht & _ & Ha).
  - split; [discriminate | repeat constructor].
  - reflexivity.
  - discriminate.
  - repeat constructor; discriminate.
  - repeat constructor; intros H;
      repeat (destruct H as [H | H]; [discriminate |]); exact H.
  - reflexivity.
  - split; [exact Ht | exact Ha].
Defined.

Lemma get_name_as_regex_flags_witness :
  get_name_as_regex MiniRe.engine (L "/foo/gi") st0
  = compile MiniRe.engine (L "foo") true (with_global true st0)
  /\ get_name_as_regex MiniRe.engine (L "/^foo/") st0
     = compile MiniRe.engine (L "^foo") false st0.
Proof.
  split.
  - apply (get_name_as_regex_flags MiniRe.engine registry (L "foo") (L "gi")
             st0).
    + discriminate.
    + intros H. repeat (destruct H as [H | H]; [discriminate |]). exact H.
    + intros H. repeat (destruct H as [H | H]; [discriminate |]). exact H.
    + simpl. lia.
  - apply (get_name_as_regex_flags MiniRe.engine registry (L "^foo") [] st0).
    + discriminate.
    + intros H. repeat (destruct H as [H | H]; [discriminate |]). exact H.
    + intros [].
    + simpl. lia.
Defined.

(** ** The snapshot and the live iteration *)

Section SnapshotFacts.

Variable E : RegexEngine.
Variables W D : Type.
Variable parser : W -> Parser D.
Variable V : Variant W.

(** X7. [get_all_matching_unit_name] returns the matching names of the
    mapping in its order and leaves the instance and the facade as they are;
    when the per-unit action returns and keeps the names of the mapping, the
    loop of [execute] over the generator [next_matching_unit_name] calls the
    action on exactly these names, in this order, and counts them. *)
Theorem snapshot_agrees_with_live_iteration (t : UnitType) (rx : regex E)
    (st : state W) :
  preserving parser V t ->
  exists (matching : list str) (st' : state W),
    matching
    = filter (regex_test E (is_regex_global st) rx)
        (keys (select t (parser (facade st))))
    /\ get_all_matching_unit_name E parser (Some t) rx st = (Ok matching, st)
    /\ count_matching E parser V (Some t) rx st = (Ok (length matching), st')
    /\ trace st' = trace st ++ map (Execute_on_unit (Some t)) matching.
Proof.
  intros Hact.
  destruct (for_matching_preserving E W D parser V t (is_regex_global st) rx
              (keys (select t (parser (facade st)))) Hact
              (length (keys (select t (parser (facade st))))) 0 0 st
              eq_refl ltac:(lia))
    as (st' & Hrun & Htr & _).
  cbn [skipn Nat.add] in Hrun, Htr.
  eexists _, st'. split; [reflexivity |].
  split; [reflexivity |]. split; [| exact Htr].
  unfold count_matching. cbn [relevant_dict].
  replace (length (select t (parser (facade st))))
    with (length (keys (select t (parser (facade st)))))
    by (unfold keys; apply length_map).
  exact Hrun.
Qed.

End SnapshotFacts.

Lemma snapshot_agrees_with_live_iteration_witness :
  exists st',
    get_all_matching_unit_name MiniRe.engine (fun w : registry => w)
      (Some intent) (MiniRe.literal (L "gre") false)
      (with_global true (init_tokens [] false example_registry))
    = (Ok [L "greet"; L "great"; L "regret"],
       with_global true (init_tokens [] false example_registry))
    /\ count_matching MiniRe.engine (fun w : registry => w) reading_variant
         (Some intent) (MiniRe.literal (L "gre") false)
         (with_global true (init_tokens [] false example_registry))
       = (Ok 3, st').
Proof.
  destruct (snapshot_agrees_with_live_iteration MiniRe.engine registry unit
              (fun w => w) reading_variant intent
              (MiniRe.literal (L "gre") false)
              (with_global true (init_tokens [] false example_registry))
              (reading_variant_preserving intent))
    as (matching & st' & Hm & Hall & Hcount & _).
  exists st'. vm_compute in Hm. subst matching.
  split; [exact Hall | exact Hcount].
Defined.

(** ** Errors of [execute] *)

Section Errors.

Variable E : RegexEngine.
Variables W D : Type.
Variable parser : W -> Parser D.
Variable V : Variant W.

(** The step of the iteration after the mapping has changed its size. *)
Lemma for_matching_size_changed (remaining size pos : nat) (t : UnitType)
    (is_global : option bool) (rx : regex E) (count : nat) (st : state W) :
  length (select t (parser (facade st))) <> size ->
  for_matching E parser V remaining size pos (Some t) is_global rx count st
  = (Raise RuntimeError, st).
Proof.
  intros Hs. apply Nat.eqb_neq in Hs.
  destruct remaining; cbn [for_matching relevant_dict]; rewrite Hs; reflexivity.
Qed.

(** The iteration up to an action that changes the size of the mapping. *)
Lemma for_matching_resized (t : UnitType) (is_global : option bool)
    (rx : regex E) (first : str) (w' : W) :
  forall (remaining pos count : nat) (st : state W) (more : list str),
    remaining + pos = length (select t (parser (facade st))) ->
    filter (regex_test E is_global rx)
      (skipn pos (keys (select t (parser (facade st)))))
    = first :: more ->
    execute_on_unit V (Some t) first (facade st) = Ok w' ->
    length (select t (parser w')) <> length (select t (parser (facade st))) ->
    exists st',
      for_matching E parser V remaining
        (length (select t (parser (facade st)))) pos (Some t) is_global rx
        count st
      = (Raise RuntimeError, st')
      /\ trace st' = trace st ++ [Execute_on_unit (Some t) first].
Proof.
  induction remaining as [|r IH]; intros pos count st more Hlen Hf Hact Hsize.
  - rewrite skipn_all2 in Hf by (unfold keys; rewrite length_map; lia).
    discriminate.
  - cbn [for_matching relevant_dict]. rewrite Nat.eqb_refl. cbn [negb].
    destruct (nth_error (select t (parser (facade st))) pos)
      as [[unit_name v]|] eqn:Hn;
      [| apply nth_error_None in Hn; lia].
    assert (Hn' : nth_error (keys (select t (parser (facade st)))) pos
                  = Some unit_name)
      by (unfold keys; rewrite nth_error_map, Hn; reflexivity).
    rewrite (skipn_nth_error _ _ _ Hn') in Hf. cbn [filter] in Hf.
    destruct (regex_test E is_global rx unit_name).
    + inversion Hf; subst unit_name.
      unfold call_execute_on_unit, bind, emit, on_facade.
      cbn [fst snd facade trace]. rewrite Hact.
      rewrite for_matching_size_changed by (cbn [facade]; exact Hsize).
      eexists. split; reflexivity.
    + apply (IH (S pos) count st more); [lia | exact Hf | exact Hact | exact Hsize].
Qed.

(** X8. When the per-unit action changes the size of the mapping on the
    first matching name, the iteration of [execute] over the live mapping
    raises [RuntimeError] at its next step: the action has been called once,
    on that name, and neither the other matching names nor the finalize hook
    are reached. *)
Theorem execute_resizing_action_raises (st st1 : state W) (t0 t1 t2 : str)
    (rest : list str) (t : UnitType) (rx : regex E) (first : str)
    (more : list str) (w' : W) :
  command_tokens st = t0 :: t1 :: t2 :: rest ->
  get_unit_type_from_str t1 = Some t ->
  get_name_as_regex E t2 st = (Ok (Some rx), st1) ->
  filter (regex_test E (is_regex_global st1) rx)
    (keys (select t (parser (facade st))))
  = first :: more ->
  execute_on_unit V (Some t) first (facade st) = Ok w' ->
  length (select t (parser w')) <> length (select t (parser (facade st))) ->
  exists st',
    execute E parser V st = (Raise RuntimeError, st')
    /\ trace st' = trace st ++ [Execute_on_unit (Some t) first].
Proof.
  intros Htok Hut Hrx Hf Hact Hsize.
  rewrite (execute_after_parse E W D parser V st t0 t1 t2 rest Htok).
  destruct (get_name_as_regex_frame E W t2 st) as (_ & _ & Hfac & Htr).
  rewrite Hrx in Hfac, Htr. cbn [snd] in Hfac, Htr.
  rewrite Hrx, Hut. rewrite <- Hfac in Hf, Hact, Hsize.
  destruct (for_matching_resized t (is_regex_global st1) rx first w'
              (length (select t (parser (facade st1)))) 0 0 st1 more
              ltac:(lia) Hf Hact Hsize)
    as (st' & Hrun & Htr').
  exists st'. unfold bind, count_matching. cbn [relevant_dict].
  rewrite Hrun. split; [reflexivity |]. rewrite Htr', Htr. reflexivity.
Qed.

(** X9. An error met before the first call reaches the caller as it is and
    leaves no call behind: when parsing the third token raises ([IndexError],
    or the [re.error] of a pattern that does not compile), and when the third
    token is a regex and the second names no unit type ([ValueError]),
    [execute] raises that error with the trace and the facade unchanged. *)
Theorem execute_raises_before_any_call (st : state W) (t0 t1 t2 : str)
    (rest : list str) :
  command_tokens st = t0 :: t1 :: t2 :: rest ->
  (forall (e : exn) (st1 : state W),
     get_name_as_regex E t2 st = (Raise e, st1) ->
     execute E parser V st = (Raise e, st1)
     /\ trace st1 = trace st /\ facade st1 = facade st)
  /\ (forall (rx : regex E) (st1 : state W),
        get_name_as_regex E t2 st = (Ok (Some rx), st1) ->
        get_unit_type_from_str t1 = None ->
        execute E parser V st
        = (Raise (ValueError
                    (L "Unexpected unit type when matching regex: None")),
           st1)
        /\ trace st1 = trace st /\ facade st1 = facade st).
Proof.
  intros Htok.
  destruct (get_name_as_regex_frame E W t2 st) as (_ & _ & Hfac & Htr).
  split.
  - intros e st1 Hrx. rewrite Hrx in Hfac, Htr.
    rewrite (execute_after_parse E W D parser V st t0 t1 t2 rest Htok), Hrx.
    auto.
  - intros rx st1 Hrx Hut. rewrite Hrx in Hfac, Htr.
    rewrite (execute_after_parse E W D parser V st t0 t1 t2 rest Htok), Hrx, Hut.
    auto.
Qed.

End Errors.

Lemma execute_resizing_action_raises_witness :
  exists st',
    run_line deleting_variant (L "delete alias /foo/g") example_registry
    = (Raise RuntimeError, st')
    /\ trace st' = [Execute_on_unit (Some alias) (L "foo")].
Proof.
  pose (st := init (L "delete alias /foo/g") false example_registry).
  destruct (execute_resizing_action_raises MiniRe.engine registry unit
              (fun w => w) deleting_variant st (with_global true st)
              (L "delete") (L "alias") (L "/foo/g") [] alias
              (MiniRe.literal (L "foo") false) (L "foo") [L "xfoo"]
              {| alias_definitions := names [L "xfoo"; L "Foobar"; L "xa/g"];
                 slot_definitions := names [L "city"];
                 intent_definitions :=
                   names [L "greet"; L "bye"; L "great"; L "regret"] |}
              eq_refl eq_refl eq_refl eq_refl eq_refl)
    as (st' & Hrun & Htr).
  - simpl. lia.
  - exists st'. split; [exact Hrun | exact Htr].
Defined.

Lemma execute_raises_before_any_call_witness :
  run_line reading_variant (L "show alias /a**/") example_registry
  = (Raise re_error, init (L "show alias /a**/") false example_registry)
  /\ fst (run_line reading_variant (L "show foo /x/") example_registry)
     = Raise (ValueError (L "Unexpected unit type when matching regex: None")).
Proof.
  split.
  - destruct (execute_raises_before_any_call MiniRe.engine registry unit
                (fun w => w) reading_variant
                (init (L "show alias /a**/") false example_registry)
                (L "show") (L "alias") (L "/a**/") [] eq_refl)
      as [H _].
    exact (proj1 (H re_error _ eq_refl)).
  - destruct (execute_raises_before_any_call MiniRe.engine registry unit
                (fun w => w) reading_variant
                (init (L "show foo /x/") false example_registry)
                (L "show") (L "foo") (L "/x/") [] eq_refl)
      as [_ H].
    destruct (H (MiniRe.literal (L "x") false) _ eq_refl eq_refl) as [Hr _].
    exact (f_equal fst Hr).
Defined.

(** ** The message of no match *)

Section NoMatch.

Variable E : RegexEngine.
Variables W D : Type.
Variable parser : W -> Parser D.
Variable V : Variant W.

(** Whatever the action does, the count the loop returns is the number of
    calls it made. *)
Lemma for_matching_count (remaining : nat) :
  forall (size pos : nat) (unit_type : option UnitType)
         (is_global : option bool) (rx : regex E) (count : nat)
         (st : state W),
  exists l,
    trace (snd (for_matching E parser V remaining size pos unit_type
                  is_global rx count st))
    = trace st ++ l
    /\ Forall (fun e => is_action e = true) l
    /\ forall c,
         fst (for_matching E parser V remaining size pos unit_type
                is_global rx count st) = Ok c ->
         c = count + length l.
Proof.
  assert (Hnil : forall (r : result nat * state W) (st : state W) count,
             snd r = st -> (forall c, fst r = Ok c -> c = count) ->
             exists l, trace (snd r) = trace st ++ l
                       /\ Forall (fun e => is_action e = true) l
                       /\ forall c, fst r = Ok c -> c = count + length l).
  { intros r st count Hs Hc. exists []. rewrite Hs, app_nil_r.
    split; [reflexivity | split; [constructor |]].
    intros c H. rewrite (Hc c H). simpl. lia. }
  induction remaining as [|r IH]; intros size pos unit_type g rx count st.
  - cbn [for_matching].
    destruct (relevant_dict unit_type (parser (facade st)));
      [destruct (negb _) |]; apply Hnil; try reflexivity;
      cbn [fst]; intros c H; congruence.
  - cbn [for_matching].
    destruct (relevant_dict unit_type (parser (facade st))) as [d|e];
      [| apply Hnil; [reflexivity | cbn [fst]; intros c H; congruence]].
    destruct (negb (length d =? size));
      [apply Hnil; [reflexivity | cbn [fst]; intros c H; congruence] |].
    destruct (nth_error d pos) as [[unit_name v]|];
      [| apply Hnil; [reflexivity | cbn [fst]; intros c H; congruence]].
    destruct (regex_test E g rx unit_name); [| apply IH].
    unfold call_execute_on_unit, bind, emit, on_facade.
    cbn [fst snd facade trace].
    destruct (execute_on_unit V unit_type unit_name (facade st)) as [w|e].
    + match goal with
      | |- context [for_matching E parser V r size (S pos) unit_type g rx
                      (S count) ?s] =>
          destruct (IH size (S pos) unit_type g rx (S count) s)
            as (l & Hl & Hf & Hc)
      end.
      exists (Execute_on_unit unit_type unit_name :: l).
      split; [| split; [constructor; [reflexivity | exact Hf] |]].
      * rewrite Hl. cbn [trace]. rewrite <- app_assoc. reflexivity.
      * intros c H. rewrite (Hc c H). simpl. lia.
    + exists [Execute_on_unit unit_type unit_name].
      split; [reflexivity | split; [repeat constructor |]].
      cbn [fst]. intros c H. discriminate.
Qed.

Lemma count_matching_count (unit_type : option UnitType) (rx : regex E)
    (st : state W) :
  exists l,
    trace (snd (count_matching E parser V unit_type rx st)) = trace st ++ l
    /\ Forall (fun e => is_action e = true) l
    /\ forall c,
         fst (count_matching E parser V unit_type rx st) = Ok c ->
         c = length l.
Proof.
  unfold count_matching.
  destruct (relevant_dict unit_type (parser (facade st))) as [d|e].
  - apply (for_matching_count (length d) (length d) 0 unit_type
             (is_regex_global st) rx 0 st).
  - exists []. rewrite app_nil_r.
    split; [reflexivity | split; [constructor |]].
    cbn [fst]. intros c H. discriminate.
Qed.

Lemma bind_Ok {A B} (m : M W A) (k : A -> M W B) (st st' : state W) (a : A) :
  m st = (Ok a, st') -> bind m k st = k a st'.
Proof. intros H. unfold bind. rewrite H. reflexivity. Qed.

Lemma bind_Raise {A B} (m : M W A) (k : A -> M W B) (st st' : state W)
    (e : exn) :
  m st = (Raise e, st') -> bind m k st = (Raise e, st').
Proof. intros H. unfold bind. rewrite H. reflexivity. Qed.

Lemma finish_trace (st : state W) :
  trace (snd (call_finish_execution V st)) = trace st ++ [Finish_execution].
Proof.
  unfold call_finish_execution, bind, emit, on_facade.
  cbn [fst snd facade trace].
  destruct (finish_execution V (facade st)); reflexivity.
Qed.

Lemma call_trace (unit_type : option UnitType) (unit_name : str)
    (st : state W) :
  trace (snd (call_execute_on_unit V unit_type unit_name st))
  = trace st ++ [Execute_on_unit unit_type unit_name].
Proof.
  unfold call_execute_on_unit, bind, emit, on_facade.
  cbn [fst snd facade trace].
  destruct (execute_on_unit V unit_type unit_name (facade st)); reflexivity.
Qed.

Lemma write_not_action (l : list event) (m : str) :
  Forall (fun e => is_action e = true) l -> ~ In (Write m) l.
Proof.
  intros Hf Hin. rewrite Forall_forall in Hf. specialize (Hf _ Hin).
  discriminate.
Qed.

(** X10. Whatever the hooks of the subclass do, [execute] writes to the sink
    only the message that no unit of the type matched, and only when it has
    not called the per-unit action at all. *)
Theorem execute_writes_only_without_match (st : state W) :
  exists l : list event,
    trace (snd (execute E parser V st)) = trace st ++ l
    /\ forall m : str,
         In (Write m) l ->
         actions l = []
         /\ exists t : UnitType,
              m = L "No " ++ UnitType_name t ++ L " matched.".
Proof.
  destruct (Nat.ltb_spec (length (command_tokens st)) 3) as [Hlt | Hge].
  - rewrite (execute_usage E W D parser V st Hlt).
    eexists. split; [reflexivity |].
    intros m [H | []]. discriminate.
  - destruct (command_tokens st) as [|t0 [|t1 [|t2 rest]]] eqn:Htok;
      try (simpl in Hge; lia).
    rewrite (execute_after_parse E W D parser V st t0 t1 t2 rest Htok).
    destruct (get_name_as_regex_frame E W t2 st) as (_ & _ & _ & Htr).
    destruct (get_name_as_regex E t2 st) as [[[rx|]|e] st1];
      cbn [snd] in Htr; rewrite <- Htr.
    + (* a regex *)
      destruct (count_matching_count (get_unit_type_from_str t1) rx st1)
        as (la & Hla & Hact & Hcount).
      destruct (count_matching E parser V (get_unit_type_from_str t1) rx st1)
        as [[c|e] st2] eqn:Hcm; cbn [fst snd] in Hla, Hcount.
      * specialize (Hcount c eq_refl).
        destruct la as [|a la'].
        -- subst c. rewrite app_nil_r in Hla.
           destruct (get_unit_type_from_str t1) as [t|].
           ++ erewrite bind_Ok;
                [| erewrite bind_Ok; [| exact Hcm]; reflexivity].
              cbv beta. rewrite finish_trace. cbn [trace].
              rewrite Hla, <- app_assoc.
              eexists. split; [reflexivity |].
              intros m [H | [H | []]]; [| discriminate].
              inversion H; subst m. split; [reflexivity |].
              exists t. reflexivity.
           ++ erewrite bind_Raise;
                [| erewrite bind_Ok; [| exact Hcm]; reflexivity].
              exists []. rewrite app_nil_r. split; [exact Hla | intros m []].
        -- subst c.
           erewrite bind_Ok;
             [| erewrite bind_Ok; [| exact Hcm]; reflexivity].
           cbv beta. rewrite finish_trace, Hla, <- app_assoc.
           eexists. split; [reflexivity |].
           intros m Hin. exfalso. apply in_app_or in Hin.
           destruct Hin as [Hin | [Hin | []]];
             [exact (write_not_action _ m Hact Hin) | discriminate].
      * erewrite bind_Raise; [| erewrite bind_Raise; [| exact Hcm]; reflexivity].
        exists la. split; [exact Hla |].
        intros m Hin. exfalso. exact (write_not_action _ m Hact Hin).
    + (* a literal name *)
      pose proof (call_trace (get_unit_type_from_str t1) (remove_quotes t2)
                    st1) as Hcall.
      destruct (call_execute_on_unit V (get_unit_type_from_str t1)
                  (remove_quotes t2) st1) as [[u|e] st2] eqn:Hc;
        cbn [snd] in Hcall.
      * erewrite bind_Ok; [| exact Hc]. cbv beta.
        rewrite finish_trace, Hcall, <- app_assoc.
        eexists. split; [reflexivity |].
        intros m [H | [H | []]]; discriminate.
      * erewrite bind_Raise; [| exact Hc]. cbn [snd].
        eexists. split; [exact Hcall |].
        intros m [H | []]. discriminate.
    + exists []. rewrite app_nil_r. split; [reflexivity | intros m []].
Qed.

End NoMatch.

(** ** The texts on which [get_name_as_regex] raises [IndexError] *)

Lemma split_on_from_chars (sep : ascii) (s cur w : str) (c : ascii) :
  In w (split_on_from sep cur s) -> In c w -> In c cur \/ In c s.
Proof.
  revert cur; induction s as [|x s IH]; intros cur Hw Hc; simpl in Hw.
  - destruct Hw as [<- | []]. left; exact Hc.
  - destruct (Ascii.eqb x sep).
    + destruct Hw as [<- | Hw]; [left; exact Hc |].
      destruct (IH [] Hw Hc) as [[] | H]. right; right; exact H.
    + destruct (IH (cur ++ [x]) Hw Hc) as [H | H].
      * apply in_app_or in H. destruct H as [H | [<- | []]];
          [left; exact H | right; left; reflexivity].
      * right; right; exact H.
Qed.

(** No segment of a text is non-empty exactly when the text is made of
    delimiters only. *)
Lemma splitted_str_empty (text : str) :
  splitted_str text = [] <-> Forall (fun c => c = REGEX_SYM) text.
Proof.
  split.
  - intros Hs. apply Forall_forall. intros c Hc.
    destruct (ascii_dec c REGEX_SYM) as [-> | Hne]; [reflexivity |].
    exfalso. exact (splitted_str_nonempty text c Hc Hne Hs).
  - intros Hall. unfold splitted_str, split_on.
    destruct (filter _ _) as [|w l] eqn:Hf; [reflexivity |].
    exfalso.
    assert (Hin : In w (filter (fun e => negb (str_eqb e []))
                          (split_on_from REGEX_SYM [] text)))
      by (rewrite Hf; left; reflexivity).
    apply filter_In in Hin. destruct Hin as [Hw Hne].
    apply negb_true_iff, str_eqb_neq in Hne.
    destruct w as [|c w']; [congruence |].
    destruct (split_on_from_chars REGEX_SYM text [] (c :: w') c Hw
                ltac:(left; reflexivity)) as [[] | Hc].
    rewrite Forall_forall in Hall. rewrite (Hall c Hc) in Hw.
    apply (split_on_from_fields REGEX_SYM text [] _ Hw); [intros [] |].
    left. reflexivity.
Qed.

Lemma delimiters_only_shape (text : str) :
  text <> [] -> Forall (fun c => c = REGEX_SYM) text ->
  delimited_shape text = true.
Proof.
  intros Hne Hall. destruct text as [|c t]; [congruence |].
  inversion Hall as [|? ? Hc Ht]; subst.
  unfold delimited_shape, is_delimiter_at, char_from_end.
  rewrite Ascii.eqb_refl. cbn [andb Nat.sub].
  destruct (exists_last Hne) as (x & y & Hxy).
  assert (Hy : y = REGEX_SYM).
  { rewrite Forall_forall in Hall. apply Hall. rewrite Hxy.
    apply in_or_app. right. left. reflexivity. }
  rewrite Hxy, rev_app_distr. cbn [rev app nth_error]. rewrite Hy.
  reflexivity.
Qed.

(** X11. [get_name_as_regex] raises [IndexError] exactly on the non-empty
    texts made of delimiters only ([/], [//], [///] and so on); on every
    other text its reads of [text[-2]], [text[-3]] and [splitted_str[-1]]
    stay within bounds. *)
Theorem get_name_as_regex_index_error (E : RegexEngine) (W : Type)
    (text : str) (st : state W) :
  fst (get_name_as_regex E text st) = Raise IndexError
  <-> text <> [] /\ Forall (fun c => c = REGEX_SYM) text.
Proof.
  rewrite get_name_as_regex_cases. split.
  - intros H.
    destruct (delimited_shape text) eqn:Hs; [| discriminate].
    assert (Hne : text <> []) by (intros ->; discriminate).
    split; [exact Hne |]. apply splitted_str_empty.
    destruct (splitted_str text) as [|s0 l] eqn:Hsp; [reflexivity |].
    exfalso. unfold compile in H.
    destruct (length (s0 :: l) =? 1).
    + destruct (re_compile E _ false); discriminate.
    + destruct (index_neg_last (s0 :: l) ltac:(discriminate))
        as (l' & x & _ & Hx).
      rewrite Hx in H. destruct (re_compile E _ _); discriminate.
  - intros [Hne Hall].
    rewrite (delimiters_only_shape text Hne Hall).
    apply splitted_str_empty in Hall. rewrite Hall. reflexivity.
Qed.

(** ** Lines of fewer than three words *)

Lemma length_slice_le {A} (a b : nat) (l : list A) :
  length (slice a b l) <= length l.
Proof. unfold slice. rewrite length_firstn. lia. Qed.

Lemma init_tokens_length (W : Type) (toks : list str) (q : bool) (w : W) :
  length (command_tokens (init_tokens toks q w)) <= length toks
  /\ facade (init_tokens toks q w) = w
  /\ trace (init_tokens toks q w) = [].
Proof.
  unfold init_tokens.
  destruct (find_redirection_file_path toks) as [[rt fp]|];
    cbn [command_tokens facade trace]; [| auto].
  split; [| auto]. unfold remove_redirection_tokens.
  destruct (index_neg toks 2) as [t2|];
    [destruct (_ || _) |]; apply length_slice_le.
Qed.

Lemma length_concat_ge {A} (groups : list (list A)) :
  Forall (fun g => g <> []) groups -> length groups <= length (concat groups).
Proof.
  induction 1 as [|g gs Hg _ IH]; [reflexivity |].
  cbn [concat length]. rewrite length_app.
  destruct g; [congruence | simpl; lia].
Qed.

Lemma tokenize_length (command_str : str) :
  length (tokenize command_str) <= length (split command_str).
Proof.
  destruct (tokenize_groups command_str) as (groups & Ht & Hc & Hok).
  rewrite Ht, <- Hc, length_map.
  apply length_concat_ge, group_ok_nonempty. exact Hok.
Qed.

(** X12. A line of fewer than three words, the empty line included and
    whatever its quotes, is answered by the usage message of the variant and
    by nothing else: the facade is left as it is, and neither the per-unit
    action nor the finalize hook is called. *)
Theorem short_line_usage (E : RegexEngine) (W D : Type)
    (parser : W -> Parser D) (V : Variant W) (command_str : str) (q : bool)
    (w : W) :
  length (split command_str) < 3 ->
  fst (execute E parser V (init command_str q w)) = Ok tt
  /\ trace (snd (execute E parser V (init command_str q w)))
     = [Error_log (L "Missing some arguments" ++ [NEWLINE]
                     ++ L "Usage: " ++ usage_str V)]
  /\ facade (snd (execute E parser V (init command_str q w))) = w.
Proof.
  intros Hlen. unfold init.
  destruct (init_tokens_length W (tokenize command_str) q w)
    as (Hl & Hf & Ht).
  pose proof (tokenize_length command_str) as Hl'.
  rewrite (execute_usage E W D parser V) by lia.
  unfold emit. cbn [fst snd trace facade]. rewrite Ht, Hf. auto.
Qed.

Lemma short_line_usage_witness :
  trace (snd (run_line reading_variant (L "  show   >> ") example_registry))
  = [Error_log (L "Missing some arguments" ++ [NEWLINE]
                  ++ L "Usage: show <unit-type> <unit-name>")].
Proof.
  destruct (short_line_usage MiniRe.engine registry unit (fun w => w)
              reading_variant (L "  show   >> ") false example_registry)
    as (_ & H & _).
  - vm_compute. lia.
  - exact H.
Defined.

(** ** Redirections only change the sink *)

Section Sink.

Variable E : RegexEngine.
Variables W D : Type.
Variable parser : W -> Parser D.
Variable V : Variant W.

Lemma oblivious_ret {A} (a : A) : oblivious (@ret W A a).
Proof. intros pw st. reflexivity. Qed.

Lemma oblivious_raise {A} (e : exn) : oblivious (@raise W A e).
Proof. intros pw st. reflexivity. Qed.

Lemma oblivious_emit (e : event) : oblivious (@emit W e).
Proof. intros pw st. reflexivity. Qed.

Lemma oblivious_set_is_regex_global (b : bool) :
  oblivious (@set_is_regex_global W b).
Proof. intros pw st. reflexivity. Qed.

Lemma oblivious_on_facade (f : W -> result W) : oblivious (on_facade f).
Proof.
  intros pw st. unfold on_facade. cbn [facade with_sink].
  destruct (f (facade st)); reflexivity.
Qed.

Lemma oblivious_bind {A B} (m : M W A) (k : A -> M W B) :
  oblivious m -> (forall a, oblivious (k a)) -> oblivious (bind m k).
Proof.
  intros Hm Hk pw st. unfold bind. rewrite Hm.
  destruct (m st) as [[a|e] st']; cbn [fst snd]; [apply Hk | reflexivity].
Qed.

Lemma oblivious_compile (pattern : str) (ic : bool) :
  oblivious (compile E (W := W) pattern ic).
Proof.
  unfold compile. destruct (re_compile E pattern ic);
    [apply oblivious_ret | apply oblivious_raise].
Qed.

Lemma oblivious_get_name_as_regex (text : str) :
  oblivious (get_name_as_regex E (W := W) text).
Proof.
  unfold get_name_as_regex. apply oblivious_bind.
  - unfold lift_result. destruct (regex_shape text);
      [apply oblivious_ret | apply oblivious_raise].
  - intros [|]; [| apply oblivious_ret].
    destruct (length (splitted_str text) =? 1); [apply oblivious_compile |].
    apply oblivious_bind.
    + unfold lift_option. destruct (index_neg (splitted_str text) 1);
        [apply oblivious_ret | apply oblivious_raise].
    + intros flags. apply oblivious_bind;
        [apply oblivious_set_is_regex_global |].
      intros _. destruct (contains "i"%char flags); apply oblivious_compile.
Qed.

Lemma oblivious_call_execute_on_unit (unit_type : option UnitType)
    (unit_name : str) :
  oblivious (call_execute_on_unit V unit_type unit_name).
Proof.
  unfold call_execute_on_unit. apply oblivious_bind;
    [apply oblivious_emit | intros _; apply oblivious_on_facade].
Qed.

Lemma oblivious_call_finish_execution : oblivious (call_finish_execution V).
Proof.
  unfold call_finish_execution. apply oblivious_bind;
    [apply oblivious_emit | intros _; apply oblivious_on_facade].
Qed.

Lemma oblivious_for_matching (remaining : nat) :
  forall (size pos : nat) (unit_type : option UnitType)
         (is_global : option bool) (rx : regex E) (count : nat),
    oblivious (for_matching E parser V remaining size pos unit_type
                 is_global rx count).
Proof.
  induction remaining as [|r IH]; intros size pos unit_type g rx count pw st.
  - cbn [for_matching facade with_sink].
    destruct (relevant_dict unit_type (parser (facade st)));
      [destruct (negb _) |]; reflexivity.
  - cbn [for_matching facade with_sink].
    destruct (relevant_dict unit_type (parser (facade st))) as [d|e];
      [| reflexivity].
    destruct (negb (length d =? size)); [reflexivity |].
    destruct (nth_error d pos) as [[unit_name v]|]; [| reflexivity].
    destruct (regex_test E g rx unit_name); [| apply IH].
    apply (oblivious_bind (call_execute_on_unit V unit_type unit_name)
             (fun _ => for_matching E parser V r size (S pos) unit_type g rx
                         (S count))).
    + apply oblivious_call_execute_on_unit.
    + intros _. apply IH.
Qed.

Lemma oblivious_count_matching (unit_type : option UnitType) (rx : regex E) :
  oblivious (count_matching E parser V unit_type rx).
Proof.
  intros pw st. unfold count_matching. cbn [facade is_regex_global with_sink].
  destruct (relevant_dict unit_type (parser (facade st))); [| reflexivity].
  apply oblivious_for_matching.
Qed.

Lemma oblivious_execute_body (toks : list str) :
  oblivious
    (tok1 <- lift_option (nth_error toks 1) IndexError ;;
     tok2 <- lift_option (nth_error toks 2) IndexError ;;
     unit_regex <- get_name_as_regex E tok2 ;;
     match unit_regex with
     | None =>
         call_execute_on_unit V (get_unit_type_from_str tok1)
           (remove_quotes tok2)
     | Some rx =>
         count <- count_matching E parser V (get_unit_type_from_str tok1) rx ;;
         if count =? 0 then
           match get_unit_type_from_str tok1 with
           | Some t => emit (Write (L "No " ++ UnitType_name t
                                      ++ L " matched."))
           | None => raise AttributeError
           end
         else ret tt
     end ;;
     call_finish_execution V).
Proof.
  apply oblivious_bind.
  - unfold lift_option. destruct (nth_error toks 1);
      [apply oblivious_ret | apply oblivious_raise].
  - intros tok1. apply oblivious_bind.
    + unfold lift_option. destruct (nth_error toks 2);
        [apply oblivious_ret | apply oblivious_raise].
    + intros tok2. apply oblivious_bind;
        [apply oblivious_get_name_as_regex |].
      intros [rx|]; (apply oblivious_bind;
                     [| intros _; apply oblivious_call_finish_execution]).
      * apply oblivious_bind; [apply oblivious_count_matching |].
        intros count. destruct (count =? 0); [| apply oblivious_ret].
        destruct (get_unit_type_from_str tok1);
          [apply oblivious_emit | apply oblivious_raise].
      * apply oblivious_call_execute_on_unit.
Qed.

(** [execute] neither reads nor changes the sink's configuration. *)
Lemma oblivious_execute : oblivious (execute E parser V).
Proof.
  intros pw st. unfold execute. cbn [command_tokens with_sink].
  destruct (length (command_tokens st) <? 3); [reflexivity |].
  apply (oblivious_execute_body (command_tokens st)).
Qed.

(** X13. A redirection at the end of a line changes the sink and nothing
    else in what [execute] does: when the tokens before [>> path] or
    [> path] do not themselves end with a redirection, [execute] returns or
    raises the same, makes the same calls to the sink and to the hooks (which
    are given the facade) and leaves the facade the same as on the line
    without the redirection. *)
Theorem redirection_only_changes_the_sink (base : list str) (op path : str)
    (q : bool) (w : W) :
  op = REDIRECTION_APPEND_SYM \/ op = REDIRECTION_SYM ->
  1 <= length base ->
  find_redirection_file_path base = None ->
  let redirected := execute E parser V (init_tokens (base ++ [op; path]) q w) in
  let plain := execute E parser V (init_tokens base q w) in
  fst redirected = fst plain
  /\ trace (snd redirected) = trace (snd plain)
  /\ facade (snd redirected) = facade (snd plain)
  /\ print_wrapper (snd redirected)
     = Writer_redirected
         (Some (if str_eqb op REDIRECTION_APPEND_SYM then append else truncate))
         (Some path).
Proof.
  intros Hop Hlen Hnone. cbv zeta.
  assert (Hinit : init_tokens (base ++ [op; path]) q w
                  = with_sink
                      (Writer_redirected
                         (Some (if str_eqb op REDIRECTION_APPEND_SYM
                                then append else truncate))
                         (Some path))
                      (init_tokens base q w)).
  { unfold init_tokens at 2. rewrite Hnone.
    unfold init_tokens, find_redirection_file_path, remove_redirection_tokens.
    rewrite length_ge3 by (rewrite length_app; simpl; lia).
    rewrite index_neg_snoc2, index_neg_snoc2'.
    destruct Hop as [-> | ->]; cbn [str_eqb Ascii.eqb Bool.eqb andb orb];
      rewrite slice_0_2; reflexivity. }
  rewrite Hinit, oblivious_execute. cbn [fst snd]. repeat split.
Qed.

End Sink.

Lemma redirection_only_changes_the_sink_witness :
  trace (snd (run_line reading_variant (L "show intent /gre/g >> out.txt")
                example_registry))
  = trace (snd (run_line reading_variant (L "show intent /gre/g")
                  example_registry))
  /\ print_wrapper
       (snd (run_line reading_variant (L "show intent /gre/g >> out.txt")
               example_registry))
     = Writer_redirected (Some append) (Some (L "out.txt")).
Proof.
  destruct (redirection_only_changes_the_sink MiniRe.engine registry unit
              (fun w => w) reading_variant
              [L "show"; L "intent"; L "/gre/g"] (L ">>") (L "out.txt")
              false example_registry)
    as (_ & Ht & _ & Hp).
  - left. reflexivity.
  - simpl. lia.
  - reflexivity.
  - split; [exact Ht | exact Hp].
Defined.
